(** * Crossword CSP solver (generate.py, p.py): embedding and properties

    The solver of [CrosswordCreator] is embedded as executable functions.
    Python sets and dicts are lists in iteration order: a dict is an
    association list whose entries keep their insertion position, a set is
    the list of its elements.  Methods that mutate [self.domains] or the
    [assignment] dict return the store they leave behind next to their
    result, also when they raise. *)

From Stdlib Require Import List Bool Arith ZArith Lia String Ascii.
From Stdlib Require Import Permutation Sorted.
Import ListNotations.

Set Implicit Arguments.
Local Open Scope string_scope.
Local Open Scope list_scope.

(** ** Variables of the puzzle *)

Inductive Direction := ACROSS | DOWN.

Definition Direction_eqb (a b : Direction) : bool :=
  match a, b with
  | ACROSS, ACROSS | DOWN, DOWN => true
  | _, _ => false
  end.

(** [Variable(i, j, direction, length)]: equality and hashing are on the
    four attributes. *)
Module Var.
Record t := mk { i : nat; j : nat; direction : Direction; length : nat }.

Definition eqb (a b : t) : bool :=
  Nat.eqb (i a) (i b) && Nat.eqb (j a) (j b)
  && Direction_eqb (direction a) (direction b)
  && Nat.eqb (length a) (length b).
End Var.

Abbreviation word := string.

(** ** Outcomes

    The exceptions the solver can raise.  [NoValuesLeft var] is the
    [ValueError] of [enforce_node_consistency], [EmptyMin] the [ValueError]
    of [min()] on an empty sequence.  [OutOfFuel] is not a Python outcome:
    it is what a fuelled loop answers when its fuel is spent, and the
    totality lemmas show that [ac3] and [backtrack] never answer it. *)
Inductive exn :=
| NoValuesLeft (var : Var.t)
| EmptyMin
| KeyError
| IndexError
| TypeError.

Inductive result (A : Type) :=
| Ret (a : A)
| Raise (e : exn)
| OutOfFuel.

Arguments Raise {A} e.
Arguments OutOfFuel {A}.

(** ** Dicts keyed by variables *)

Section Dict.
Variable V : Type.

Definition dict := list (Var.t * V).

Definition keys (m : dict) : list Var.t := map fst m.

(** [m[k]], [None] standing for the [KeyError]. *)
Fixpoint lookup (m : dict) (k : Var.t) : option V :=
  match m with
  | [] => None
  | (k', v) :: m' => if Var.eqb k' k then Some v else lookup m' k
  end.

(** [m[k] = v]: an existing key keeps its position, a new one goes last. *)
Fixpoint assign (m : dict) (k : Var.t) (v : V) : dict :=
  match m with
  | [] => [(k, v)]
  | (k', v') :: m' =>
      if Var.eqb k' k then (k', v) :: m' else (k', v') :: assign m' k v
  end.

(** [k in m] *)
Definition has_key (m : dict) (k : Var.t) : bool :=
  match lookup m k with Some _ => true | None => false end.
End Dict.

Arguments lookup {V} m k.
Arguments assign {V} m k v.
Arguments keys {V} m.
Arguments has_key {V} m k.

Definition Domains := dict (list word).
Definition Assignment := dict (option word).

(** ** The puzzle definition

    [crossword.py] is not among the sources; what [CrosswordCreator] reads
    from a [Crossword] is taken as given: the variables, the word list, the
    [overlaps] dict ([None]: the pair is no key, [Some None]: the pair maps
    to [None], [Some (Some (i, j))]: the recorded overlap) and the
    [neighbors] lookup. *)
Record Crossword := {
  variables : list Var.t;
  words : list word;
  overlaps : Var.t * Var.t -> option (option (nat * nat));
  neighbors : Var.t -> list Var.t
}.

(** What the puzzle definition guarantees of the two lookups: a variable is
    a neighbor of its neighbors, and [overlaps] describes a crossing from
    both sides, with the indices swapped. *)
Record WellFormed (c : Crossword) : Prop := {
  wf_neighbors_sym : forall x y, In y (neighbors c x) -> In x (neighbors c y);
  wf_overlaps_sym :
    forall x y i j, overlaps c (x, y) = Some (Some (i, j)) ->
                    overlaps c (y, x) = Some (Some (j, i))
}.

(** ** Small Python idioms *)

Definition mem (w : word) (l : list word) : bool := existsb (String.eqb w) l.

Definition option_word_dec (a b : option word) : {a = b} + {a <> b}.
Proof. decide equality. apply string_dec. Defined.

(** [all(f(x) for x in l)] where [f] may raise: stops at the first [False]
    or exception. *)
Fixpoint all_ok (A : Type) (f : A -> result bool) (l : list A) : result bool :=
  match l with
  | [] => Ret true
  | x :: l' =>
      match f x with
      | Ret true => all_ok f l'
      | r => r
      end
  end.

(** [CrosswordCreator.__init__]: every variable starts with the whole word
    list. *)
Definition init_domains (c : Crossword) : Domains :=
  map (fun var => (var, words c)) (variables c).

(** ** Node consistency *)

Definition fits (var : Var.t) (w : word) : bool :=
  Nat.eqb (String.length w) (Var.length var).

(** The loop of [enforce_node_consistency] over the keys still to visit. *)
Fixpoint enforce_loop (todo : list Var.t) (d : Domains) : result unit * Domains :=
  match todo with
  | [] => (Ret tt, d)
  | var :: rest =>
      match lookup d var with
      | None => (Raise KeyError, d)
      | Some ws =>
          let d' := assign d var (filter (fits var) ws) in
          match filter (fits var) ws with
          | [] => (Raise (NoValuesLeft var), d')
          | _ :: _ => enforce_loop rest d'
          end
      end
  end.

Definition enforce_node_consistency (d : Domains) : result unit * Domains :=
  enforce_loop (keys d) d.

(** The same function as [p.py] has it, on a dict passed by the caller. *)
Module P.
Fixpoint loop (todo : list Var.t) (domains : Domains) : result unit * Domains :=
  match todo with
  | [] => (Ret tt, domains)
  | var :: rest =>
      match lookup domains var with
      | None => (Raise KeyError, domains)
      | Some ws =>
          let domains' := assign domains var (filter (fits var) ws) in
          match filter (fits var) ws with
          | [] => (Raise (NoValuesLeft var), domains')
          | _ :: _ => loop rest domains'
          end
      end
  end.

Definition enforce_node_consistency (domains : Domains) :=
  loop (keys domains) domains.
End P.

(** ** Arc consistency *)

(** [any(vx[i] == vy[j] for vy in dy)] *)
Fixpoint any_match (vx : word) (i j : nat) (dy : list word) : result bool :=
  match dy with
  | [] => Ret false
  | vy :: rest =>
      match String.get i vx, String.get j vy with
      | Some a, Some b =>
          if Ascii.eqb a b then Ret true else any_match vx i j rest
      | _, _ => Raise IndexError
      end
  end.

Definition has_support (d : Domains) (y : Var.t) (i j : nat) (vx : word)
  : result bool :=
  match lookup d y with
  | None => Raise KeyError
  | Some dy => any_match vx i j dy
  end.

(** The loop of [revise] that collects [values_to_remove]. *)
Fixpoint values_to_remove (d : Domains) (y : Var.t) (i j : nat)
         (dx : list word) : result (list word) :=
  match dx with
  | [] => Ret []
  | vx :: rest =>
      match has_support d y i j vx with
      | Ret b =>
          match values_to_remove d y i j rest with
          | Ret rm => Ret (if b then rm else vx :: rm)
          | r => r
          end
      | Raise e => Raise e
      | OutOfFuel => OutOfFuel
      end
  end.

Definition revise (c : Crossword) (x y : Var.t) (d : Domains)
  : result bool * Domains :=
  match overlaps c (x, y) with
  | None | Some None => (Ret false, d)
  | Some (Some (i, j)) =>
      match lookup d x with
      | None => (Raise KeyError, d)
      | Some dx =>
          match values_to_remove d y i j dx with
          | Ret [] => (Ret false, d)
          | Ret rm =>
              (Ret true, assign d x (filter (fun w => negb (mem w rm)) dx))
          | Raise e => (Raise e, d)
          | OutOfFuel => (OutOfFuel, d)
          end
      end
  end.

Definition get_arcs (c : Crossword) : list (Var.t * Var.t) :=
  flat_map (fun X => map (fun Y => (X, Y)) (neighbors c X)) (variables c).

(** The arcs [(Z, X)] appended after [X] was revised against [Y]. *)
Definition requeue (c : Crossword) (X Y : Var.t) : list (Var.t * Var.t) :=
  map (fun Z => (Z, X)) (filter (fun Z => negb (Var.eqb Z Y)) (neighbors c X)).

(** The [while queue] loop up to the next revision that removes words;
    [continue] is the loop from there on. *)
Fixpoint run_queue (c : Crossword)
         (continue : list (Var.t * Var.t) -> Domains -> result bool * Domains)
         (queue : list (Var.t * Var.t)) (d : Domains) {struct queue}
  : result bool * Domains :=
  match queue with
  | [] => (Ret true, d)
  | (X, Y) :: rest =>
      match revise c X Y d with
      | (Ret true, d') =>
          match lookup d' X with
          | None => (Raise KeyError, d')
          | Some [] => (Ret false, d')
          | Some (_ :: _) => continue (rest ++ requeue c X Y) d'
          end
      | (Ret false, d') => run_queue c continue rest d'
      | (Raise e, d') => (Raise e, d')
      | (OutOfFuel, d') => (OutOfFuel, d')
      end
  end.

(** The fuel counts the revisions that remove words. *)
Fixpoint ac3_loop (c : Crossword) (fuel : nat) {struct fuel}
  : list (Var.t * Var.t) -> Domains -> result bool * Domains :=
  match fuel with
  | 0 => fun _ d => (OutOfFuel, d)
  | S fuel' => run_queue c (ac3_loop c fuel')
  end.

(** The number of words in the store: every revision lowers it. *)
Definition total_size (d : Domains) : nat :=
  list_sum (map (fun e => List.length (snd e)) d).

Definition ac3 (c : Crossword) (arcs : option (list (Var.t * Var.t)))
           (d : Domains) : result bool * Domains :=
  let queue := match arcs with None => get_arcs c | Some arcs => arcs end in
  ac3_loop c (S (total_size d)) queue d.

(** ** The predicates on assignments *)

Definition assignment_complete (c : Crossword) (a : Assignment) : bool :=
  forallb (fun var => match lookup a var with
                      | Some (Some _) => true
                      | _ => false
                      end) (variables c).

(** One neighbor of [var] in [consistent]: [Ret false] is the
    [return False]. *)
Definition check_neighbor (c : Crossword) (a : Assignment) (var : Var.t)
           (val : word) (other_var : Var.t) : result bool :=
  match lookup a other_var with
  | None => Ret true
  | Some None => Ret true
  | Some (Some other_val) =>
      match overlaps c (var, other_var) with
      | None => Ret true
      | Some None => Raise TypeError
      | Some (Some (var_pos, other_var_pos)) =>
          match String.get var_pos val, String.get other_var_pos other_val with
          | Some x, Some y => Ret (Ascii.eqb x y)
          | _, _ => Raise IndexError
          end
      end
  end.

Definition check_entry (c : Crossword) (a : Assignment)
           (e : Var.t * option word) : result bool :=
  match snd e with
  | None => Ret true
  | Some val =>
      if negb (Nat.eqb (String.length val) (Var.length (fst e)))
      then Ret false
      else all_ok (check_neighbor c a (fst e) val) (neighbors c (fst e))
  end.

Definition consistent (c : Crossword) (a : Assignment) : result bool :=
  let values := map snd a in
  if negb (Nat.eqb (List.length values)
                   (List.length (nodup option_word_dec values)))
  then Ret false
  else all_ok (check_entry c a) a.

(** ** Ordering heuristics *)

(** [self.domains[v]] for a key [v] of the store. *)
Definition domain (d : Domains) (v : Var.t) : list word :=
  match lookup d v with Some ws => ws | None => [] end.

(** The generator summed by [count_conflicts]. *)
Fixpoint count_conflicts_over (d : Domains) (a : Assignment) (value : word)
         (ns : list Var.t) : result nat :=
  match ns with
  | [] => Ret 0
  | neighbor :: rest =>
      if has_key a neighbor then count_conflicts_over d a value rest
      else
        match lookup d neighbor with
        | None => Raise KeyError
        | Some dn =>
            match count_conflicts_over d a value rest with
            | Ret s =>
                Ret (List.length dn
                     - List.length
                         (filter (fun val => negb (String.eqb val value)) dn)
                     + s)
            | r => r
            end
        end
  end.

Definition count_conflicts (c : Crossword) (d : Domains) (a : Assignment)
           (var : Var.t) (value : word) : result nat :=
  count_conflicts_over d a value (neighbors c var).

(** The keys [sorted] computes before it sorts, in the order of the list. *)
Fixpoint with_keys (A : Type) (key : A -> result nat) (l : list A)
  : result (list (nat * A)) :=
  match l with
  | [] => Ret []
  | x :: l' =>
      match key x with
      | Ret k =>
          match with_keys key l' with
          | Ret kl => Ret ((k, x) :: kl)
          | Raise e => Raise e
          | OutOfFuel => OutOfFuel
          end
      | Raise e => Raise e
      | OutOfFuel => OutOfFuel
      end
  end.

(** [sorted] is stable: an element goes in front of the equal keys that
    followed it in the input. *)
Fixpoint insert_keyed (A : Type) (x : nat * A) (l : list (nat * A))
  : list (nat * A) :=
  match l with
  | [] => [x]
  | y :: l' =>
      if Nat.leb (fst x) (fst y) then x :: y :: l' else y :: insert_keyed x l'
  end.

Fixpoint sort_keyed (A : Type) (l : list (nat * A)) : list (nat * A) :=
  match l with
  | [] => []
  | x :: l' => insert_keyed x (sort_keyed l')
  end.

(** [sorted(l, key=key)] *)
Definition sorted (A : Type) (key : A -> result nat) (l : list A)
  : result (list A) :=
  match with_keys key l with
  | Ret kl => Ret (map snd (sort_keyed kl))
  | Raise e => Raise e
  | OutOfFuel => OutOfFuel
  end.

Definition order_domain_values (c : Crossword) (d : Domains) (var : Var.t)
           (a : Assignment) : result (list word) :=
  match lookup d var with
  | None => Raise KeyError
  | Some ws => sorted (count_conflicts c d a var) ws
  end.

(** [unassigned] of [select_unassigned_variable]: the keys of the store that
    are no keys of the assignment. *)
Definition unassigned (d : Domains) (a : Assignment) : list Var.t :=
  filter (fun var => negb (has_key a var)) (keys d).

(** [set(l1) & set(l2)] is not empty. *)
Definition intersects (l1 l2 : list word) : bool :=
  existsb (fun w => mem w l2) l1.

Definition degree (d : Domains) (var : Var.t) : nat :=
  List.length
    (filter (fun other => negb (Var.eqb other var)
                          && intersects (domain d var) (domain d other))
            (keys d)).

(** The key [(len(self.domains[var]), -degree(var))] and the order of
    Python tuples on it. *)
Definition select_key (d : Domains) (var : Var.t) : nat * Z :=
  (List.length (domain d var), (- Z.of_nat (degree d var))%Z).

Definition key_ltb (k1 k2 : nat * Z) : bool :=
  Nat.ltb (fst k1) (fst k2)
  || (Nat.eqb (fst k1) (fst k2) && Z.ltb (snd k1) (snd k2)).

(** [min] keeps the first of the smallest elements. *)
Fixpoint min_from (A : Type) (key : A -> nat * Z) (best : A) (l : list A) : A :=
  match l with
  | [] => best
  | x :: l' => min_from key (if key_ltb (key x) (key best) then x else best) l'
  end.

Definition py_min (A : Type) (key : A -> nat * Z) (l : list A) : result A :=
  match l with
  | [] => Raise EmptyMin
  | x :: l' => Ret (min_from key x l')
  end.

Definition select_unassigned_variable (d : Domains) (a : Assignment)
  : result Var.t :=
  py_min (select_key d) (unassigned d a).

(** ** Backtracking search

    [backtrack] works on the caller's dict: the pair it answers holds the
    returned value ([Some a]: the dict itself, [None]: failure) and the dict
    as the call leaves it.  Each nested call has one more key, which bounds
    the depth by the number of keys of the store that the assignment lacks.
    [try_candidates] is the [for word in ...] loop, [recur] the nested
    call. *)
Fixpoint try_candidates (c : Crossword)
         (recur : Assignment -> result (option Assignment) * Assignment)
         (var : Var.t) (candidates : list word) (a : Assignment)
         {struct candidates}
  : result (option Assignment) * Assignment :=
  match candidates with
  | [] => (Ret None, a)
  | w :: rest =>
      let a1 := assign a var (Some w) in
      match consistent c a1 with
      | Ret true =>
          match recur a1 with
          | (Ret None, a2) => try_candidates c recur var rest (assign a2 var None)
          | found_or_raised => found_or_raised
          end
      | Ret false => try_candidates c recur var rest (assign a1 var None)
      | Raise e => (Raise e, a1)
      | OutOfFuel => (OutOfFuel, a1)
      end
  end.

Fixpoint backtrack_fuel (c : Crossword) (d : Domains) (fuel : nat)
         (a : Assignment) {struct fuel}
  : result (option Assignment) * Assignment :=
  match fuel with
  | 0 => (OutOfFuel, a)
  | S fuel' =>
      if assignment_complete c a then (Ret (Some a), a)
      else
        match select_unassigned_variable d a with
        | Ret var =>
            match order_domain_values c d var a with
            | Ret candidates =>
                try_candidates c (backtrack_fuel c d fuel') var candidates a
            | Raise e => (Raise e, a)
            | OutOfFuel => (OutOfFuel, a)
            end
        | Raise e => (Raise e, a)
        | OutOfFuel => (OutOfFuel, a)
        end
  end.

Definition backtrack (c : Crossword) (d : Domains) (a : Assignment)
  : result (option Assignment) * Assignment :=
  backtrack_fuel c d (S (List.length (unassigned d a))) a.

(** ** The search with its trace

    The same search, answering in addition the writes
    [assignment[var] = word] it made, in the order it made them. *)
Definition Trace := list (Var.t * word).

Fixpoint try_candidates_log (c : Crossword)
         (recur : Assignment
                  -> result (option Assignment) * Assignment * Trace)
         (var : Var.t) (candidates : list word) (a : Assignment)
         {struct candidates}
  : result (option Assignment) * Assignment * Trace :=
  match candidates with
  | [] => (Ret None, a, [])
  | w :: rest =>
      let a1 := assign a var (Some w) in
      match consistent c a1 with
      | Ret true =>
          match recur a1 with
          | (Ret None, a2, t) =>
              match try_candidates_log c recur var rest
                                       (assign a2 var None) with
              | (r, a3, t') => (r, a3, (var, w) :: t ++ t')
              end
          | (found_or_raised, a2, t) => (found_or_raised, a2, (var, w) :: t)
          end
      | Ret false =>
          match try_candidates_log c recur var rest (assign a1 var None) with
          | (r, a3, t') => (r, a3, (var, w) :: t')
          end
      | Raise e => (Raise e, a1, [(var, w)])
      | OutOfFuel => (OutOfFuel, a1, [(var, w)])
      end
  end.

Fixpoint backtrack_log_fuel (c : Crossword) (d : Domains) (fuel : nat)
         (a : Assignment) {struct fuel}
  : result (option Assignment) * Assignment * Trace :=
  match fuel with
  | 0 => (OutOfFuel, a, [])
  | S fuel' =>
      if assignment_complete c a then (Ret (Some a), a, [])
      else
        match select_unassigned_variable d a with
        | Ret var =>
            match order_domain_values c d var a with
            | Ret candidates =>
                try_candidates_log c (backtrack_log_fuel c d fuel') var
                                   candidates a
            | Raise e => (Raise e, a, [])
            | OutOfFuel => (OutOfFuel, a, [])
            end
        | Raise e => (Raise e, a, [])
        | OutOfFuel => (OutOfFuel, a, [])
        end
  end.

Definition backtrack_log (c : Crossword) (d : Domains) (a : Assignment)
  : result (option Assignment) * Assignment * Trace :=
  backtrack_log_fuel c d (S (List.length (unassigned d a))) a.

(** The variables a call of [backtrack] tried: those it assigned a word at
    least once, at any depth. *)
Definition tried (c : Crossword) (d : Domains) (a : Assignment)
  : list Var.t :=
  map fst (snd (backtrack_log c d a)).

(** ** The facade

    [solve] also answers the calls it made, in order. *)
Inductive phase := NodeConsistency | ArcConsistency | Search.

Definition solve (c : Crossword) : result (option Assignment) * list phase :=
  match enforce_node_consistency (init_domains c) with
  | (Ret _, d1) =>
      match ac3 c None d1 with
      | (Ret _, d2) =>
          (fst (backtrack c d2 []), [NodeConsistency; ArcConsistency; Search])
      | (Raise e, _) => (Raise e, [NodeConsistency; ArcConsistency])
      | (OutOfFuel, _) => (OutOfFuel, [NodeConsistency; ArcConsistency])
      end
  | (Raise e, _) => (Raise e, [NodeConsistency])
  | (OutOfFuel, _) => (OutOfFuel, [NodeConsistency])
  end.

(** ** Example puzzles *)

Module Examples.
(** Three crossing slots of length 3:
<<
    ___
    _#_
    _#_
>>
    [X] is the top row, [Z] the left column, [Y] the right column. *)
Definition X := Var.mk 0 0 ACROSS 3.
Definition Y := Var.mk 0 2 DOWN 3.
Definition Z := Var.mk 0 0 DOWN 3.

Definition overlaps3 (p : Var.t * Var.t) : option (option (nat * nat)) :=
  let (a, b) := p in
  if Var.eqb a b then None
  else if Var.eqb a X && Var.eqb b Y then Some (Some (2, 0))
  else if Var.eqb a Y && Var.eqb b X then Some (Some (0, 2))
  else if Var.eqb a X && Var.eqb b Z then Some (Some (0, 0))
  else if Var.eqb a Z && Var.eqb b X then Some (Some (0, 0))
  else if (Var.eqb a Y && Var.eqb b Z) || (Var.eqb a Z && Var.eqb b Y)
       then Some None
  else None.

Definition neighbors3 (v : Var.t) : list Var.t :=
  if Var.eqb v X then [Y; Z]
  else if Var.eqb v Y then [X]
  else if Var.eqb v Z then [X]
  else [].

Definition three_slots : Crossword :=
  {| variables := [X; Y; Z];
     words := ["abc"; "cde"; "cfg"; "ehi"];
     overlaps := overlaps3;
     neighbors := neighbors3 |}.

(** Two crossing slots, the last letter of [X] being the first of [Y]:
<<
      ___
      ##_
      ##_
>>
*)
Definition overlaps2 (p : Var.t * Var.t) : option (option (nat * nat)) :=
  let (a, b) := p in
  if Var.eqb a X && Var.eqb b Y then Some (Some (2, 0))
  else if Var.eqb a Y && Var.eqb b X then Some (Some (0, 2))
  else None.

Definition neighbors2 (v : Var.t) : list Var.t :=
  if Var.eqb v X then [Y] else if Var.eqb v Y then [X] else [].

Definition two_slots (ws : list word) : Crossword :=
  {| variables := [X; Y];
     words := ws;
     overlaps := overlaps2;
     neighbors := neighbors2 |}.

(** One slot of length 4. *)
Definition W := Var.mk 0 0 ACROSS 4.

Definition one_slot (ws : list word) : Crossword :=
  {| variables := [W];
     words := ws;
     overlaps := fun _ => None;
     neighbors := fun _ => [] |}.
End Examples.

(** ** Properties named by the specification *)

(** The store [d'] has the keys of [d] and no word that [d] lacks. *)
Definition shrinks (d d' : Domains) : Prop :=
  keys d' = keys d /\
  forall v ws', lookup d' v = Some ws' ->
                exists ws, lookup d v = Some ws /\ incl ws' ws.

(** [x] and [y] have no recorded overlap. *)
Definition no_overlap (c : Crossword) (x y : Var.t) : Prop :=
  overlaps c (x, y) = None \/ overlaps c (x, y) = Some None.

(** Every word left for [X] has a partner in the domain of [Y] at the
    recorded overlap. *)
Definition arc_ok (c : Crossword) (d : Domains) (X Y : Var.t) : Prop :=
  forall i j vx,
    overlaps c (X, Y) = Some (Some (i, j)) ->
    In vx (domain d X) ->
    exists vy ch, In vy (domain d Y)
                  /\ String.get i vx = Some ch /\ String.get j vy = Some ch.

Definition arc_consistent (c : Crossword) (d : Domains) : Prop :=
  forall X Y, In X (variables c) -> In Y (neighbors c X) -> arc_ok c d X Y.

(** The invariant of the AC-3 loop: an arc is in the queue or it is
    consistent. *)
Definition pending (c : Crossword) (queue : list (Var.t * Var.t))
           (d : Domains) : Prop :=
  forall X Y, In X (variables c) -> In Y (neighbors c X) ->
              In (X, Y) queue \/ arc_ok c d X Y.

(** A complete assignment without a repeated word, with words of the right
    length that agree where neighbors cross. *)
Record valid_solution (c : Crossword) (a : Assignment) : Prop := {
  sol_complete :
    forall v, In v (variables c) -> exists w, lookup a v = Some (Some w);
  sol_unique :
    forall v1 v2 w, lookup a v1 = Some (Some w) -> lookup a v2 = Some (Some w) ->
                    v1 = v2;
  sol_length :
    forall v w, lookup a v = Some (Some w) -> String.length w = Var.length v;
  sol_overlap :
    forall v u w w' i j,
      lookup a v = Some (Some w) -> In u (neighbors c v) ->
      lookup a u = Some (Some w') ->
      overlaps c (v, u) = Some (Some (i, j)) ->
      exists ch, String.get i w = Some ch /\ String.get j w' = Some ch
}.

(** A variable is assigned when it maps to a word: the specification counts
    an absent variable and one mapped to [None] as unassigned. *)
Definition is_assigned (a : Assignment) (v : Var.t) : bool :=
  match lookup a v with Some (Some _) => true | _ => false end.

(** No key of the assignment maps to the unassigned marker. *)
Definition no_marker (a : Assignment) : Prop :=
  forall v, lookup a v <> Some None.

Definition unassigned_neighbors (c : Crossword) (a : Assignment) (var : Var.t)
  : list Var.t :=
  filter (fun n => negb (is_assigned a n)) (neighbors c var).

(** The score as the specification words it: over the unassigned neighbors,
    the entries of the neighbor's domain that differ from the candidate. *)
Definition score_unequal (c : Crossword) (d : Domains) (a : Assignment)
           (var : Var.t) (value : word) : nat :=
  list_sum
    (map (fun n => List.length
                     (filter (fun val => negb (String.eqb val value))
                             (domain d n)))
         (unassigned_neighbors c a var)).

(** The score with the entries that equal the candidate instead. *)
Definition score_equal (c : Crossword) (d : Domains) (a : Assignment)
           (var : Var.t) (value : word) : nat :=
  list_sum
    (map (fun n => count_occ string_dec (domain d n) value)
         (unassigned_neighbors c a var)).

Definition ascending (score : word -> nat) (l : list word) : Prop :=
  StronglySorted (fun w1 w2 => score w1 <= score w2) l.

(** What a call of [revise] can do: leave the store alone, or replace the
    domain of [x] by the words that are not in [values_to_remove]. *)
Inductive revise_outcome (c : Crossword) (x y : Var.t) (d : Domains)
  : result bool * Domains -> Prop :=
| revise_untouched r :
    r <> Ret true -> revise_outcome c x y d (r, d)
| revise_removed i j dx rm :
    overlaps c (x, y) = Some (Some (i, j)) ->
    lookup d x = Some dx ->
    values_to_remove d y i j dx = Ret rm ->
    rm <> [] ->
    revise_outcome c x y d
      (Ret true, assign d x (filter (fun w => negb (mem w rm)) dx)).

(** One step of node consistency on the store: a domain stays or is pruned
    to the words that fit. *)
Definition prune_step (d d' : Domains) : Prop :=
  keys d' = keys d /\
  forall v, lookup d' v = lookup d v
            \/ lookup d' v = option_map (filter (fits v)) (lookup d v).

(** Every word of the assignment is in the domain of its variable. *)
Definition from_domains (d : Domains) (a : Assignment) : bool :=
  forallb (fun e => match snd e with
                    | Some w => mem w (domain d (fst e))
                    | None => false
                    end) a.

(** The sum [count_conflicts] computes: over the neighbors that are no keys
    of the assignment, the entries of the neighbor's domain that equal the
    candidate. *)
Definition conflicts (c : Crossword) (d : Domains) (a : Assignment)
           (var : Var.t) (value : word) : nat :=
  list_sum
    (map (fun n => count_occ string_dec (domain d n) value)
         (filter (fun n => negb (has_key a n)) (neighbors c var))).

(** The order of Python tuples on the keys of [min]. *)
Definition key_le (k1 k2 : nat * Z) : Prop :=
  fst k1 < fst k2 \/ (fst k1 = fst k2 /\ (snd k1 <= snd k2)%Z).

(** What a failed search may have done to the entry of [v]: nothing, or
    added it with the unassigned marker. *)
Definition marked_at (a a' : Assignment) (v : Var.t) : Prop :=
  lookup a' v = lookup a v \/ (lookup a v = None /\ lookup a' v = Some None).


(** ** Iteration orders

    The orders in which a Python set may be iterated: all the orderings of
    its elements. *)
Fixpoint insert_everywhere (A : Type) (x : A) (l : list A) : list (list A) :=
  match l with
  | [] => [[x]]
  | y :: l' => (x :: y :: l') :: map (cons y) (insert_everywhere x l')
  end.

Fixpoint orderings (A : Type) (l : list A) : list (list A) :=
  match l with
  | [] => [[]]
  | x :: l' => flat_map (insert_everywhere x) (orderings l')
  end.

(** The three-slot puzzle and its store after node and arc consistency,
    with the iteration orders of the sets left open. *)
Definition three_slots_in_order (vars nX : list Var.t) : Crossword :=
  {| variables := vars;
     words := ["abc"; "cde"; "cfg"; "ehi"];
     overlaps := Examples.overlaps3;
     neighbors := fun v => if Var.eqb v Examples.X then nX
                           else Examples.neighbors3 v |}.

Definition three_slots_store (vars : list Var.t) (dX dY dZ : list word)
  : Domains :=
  map (fun v => (v, if Var.eqb v Examples.X then dX
                    else if Var.eqb v Examples.Y then dY else dZ)) vars.

Definition raises_EmptyMin (A : Type) (r : result A) : bool :=
  match r with Raise EmptyMin => true | _ => false end.

(** The search on the three-slot puzzle under every iteration order. *)
Definition three_slots_all_orders : bool :=
  forallb (fun vars =>
  forallb (fun nX =>
  forallb (fun dX =>
  forallb (fun dY =>
  forallb (fun dZ =>
    raises_EmptyMin
      (fst (backtrack (three_slots_in_order vars nX)
                      (three_slots_store vars dX dY dZ) [])))
    (orderings ["abc"; "cde"; "cfg"]))
    (orderings ["cde"; "cfg"; "ehi"]))
    (orderings ["abc"; "cde"]))
    (orderings [Examples.Y; Examples.Z]))
    (orderings [Examples.X; Examples.Y; Examples.Z]).


(** The order [sorted] puts the keyed elements in. *)
Definition by_key (A : Type) (x y : nat * A) : Prop := fst x <= fst y.

(** ** Further properties of the solver *)

(** A store as node consistency leaves it: every domain holds words of the
    variable's length only, and at least one. *)
Definition node_consistent (d : Domains) : Prop :=
  forall v ws, lookup d v = Some ws -> filter (fits v) ws = ws /\ ws <> [].

(** [vx] has a partner in [dy]: some word of [dy] has at index [j] the
    character [vx] has at index [i]. *)
Definition supported (i j : nat) (dy : list word) (vx : word) : bool :=
  existsb (fun vy => match String.get i vx, String.get j vy with
                     | Some x, Some y => Ascii.eqb x y
                     | _, _ => false
                     end) dy.

(** No domain of the store is empty. *)
Definition no_empty_domain (d : Domains) : Prop :=
  forall v ws, lookup d v = Some ws -> ws <> [].


(** What [consistent] asks of one entry: nothing of an entry mapped to
    [None]; of a word, the length of its variable and, for every neighbor
    that maps to a word, either no key for the pair in [overlaps] or equal
    characters at the recorded overlap. *)
Definition entry_ok (c : Crossword) (a : Assignment) (e : Var.t * option word)
  : Prop :=
  match snd e with
  | None => True
  | Some w =>
      String.length w = Var.length (fst e)
      /\ forall u w', In u (neighbors c (fst e)) ->
                      lookup a u = Some (Some w') ->
                      overlaps c (fst e, u) = None
                      \/ exists i j ch,
                           overlaps c (fst e, u) = Some (Some (i, j))
                           /\ String.get i w = Some ch
                           /\ String.get j w' = Some ch
  end.

(** [u] comes behind [v] in the order of [min]: more words, or as many and
    a lower degree. *)
Definition behind (d : Domains) (v u : Var.t) : Prop :=
  List.length (domain d v) < List.length (domain d u)
  \/ (List.length (domain d u) = List.length (domain d v)
      /\ degree d u < degree d v).


(** What the geometry of a grid gives the lookups: the neighbors of a
    variable are variables, a neighbor pair has its overlap recorded when
    the pair is a key of [overlaps], and a recorded overlap indexes into the
    two slots. *)
Record InRange (c : Crossword) : Prop := {
  ir_neighbors_vars :
    forall x y, In x (variables c) -> In y (neighbors c x) ->
                In y (variables c);
  ir_recorded :
    forall x y, In y (neighbors c x) -> overlaps c (x, y) <> Some None;
  ir_index :
    forall x y i j, overlaps c (x, y) = Some (Some (i, j)) ->
                    i < Var.length x /\ j < Var.length y
}.

(** Every word of the store has the length of its variable. *)
Definition lengths_ok (d : Domains) : Prop :=
  forall v ws w, lookup d v = Some ws -> In w ws ->
                 String.length w = Var.length v.

(** The exceptions [solve] raises on a puzzle in range. *)
Definition expected_error (c : Crossword) (e : exn) : Prop :=
  e = EmptyMin
  \/ exists v, e = NoValuesLeft v
               /\ In v (variables c)
               /\ forall w, In w (words c) -> String.length w <> Var.length v.


(** ** The letter grid

    [letter_grid] fills a [height] by [width] array of cells with the letters
    of the assignment; the two dimensions are attributes of the puzzle
    definition and are taken as given. *)
Definition Grid := list (list (option ascii)).

(** [l[n] = x] on a list that is long enough. *)
Fixpoint replace (A : Type) (n : nat) (x : A) (l : list A) : list A :=
  match l, n with
  | [], _ => []
  | _ :: l', 0 => x :: l'
  | y :: l', S n' => y :: replace n' x l'
  end.

(** [letters[i][j] = ch] *)
Definition set_cell (letters : Grid) (i j : nat) (ch : ascii) : result Grid :=
  match nth_error letters i with
  | None => Raise IndexError
  | Some row =>
      if Nat.ltb j (List.length row)
      then Ret (replace i (replace j (Some ch) row) letters)
      else Raise IndexError
  end.

(** The cell of the [k]-th letter of a slot. *)
Definition cell_of (variable : Var.t) (k : nat) : nat * nat :=
  (Var.i variable
   + match Var.direction variable with DOWN => k | ACROSS => 0 end,
   Var.j variable
   + match Var.direction variable with ACROSS => k | DOWN => 0 end).

(** The loop [for k in range(len(word))], over the values of [k] left. *)
Fixpoint write_word (letters : Grid) (variable : Var.t) (word : string)
         (ks : list nat) : result Grid :=
  match ks with
  | [] => Ret letters
  | k :: ks' =>
      match String.get k word with
      | None => Raise IndexError
      | Some ch =>
          match set_cell letters (fst (cell_of variable k))
                         (snd (cell_of variable k)) ch with
          | Ret letters' => write_word letters' variable word ks'
          | Raise e => Raise e
          | OutOfFuel => OutOfFuel
          end
      end
  end.

(** The loop over [assignment.items()]; [len(word)] of [None] is a
    [TypeError]. *)
Fixpoint fill (letters : Grid) (items : Assignment) : result Grid :=
  match items with
  | [] => Ret letters
  | (variable, None) :: _ => Raise TypeError
  | (variable, Some word) :: rest =>
      match write_word letters variable word (seq 0 (String.length word)) with
      | Ret letters' => fill letters' rest
      | Raise e => Raise e
      | OutOfFuel => OutOfFuel
      end
  end.

Definition letter_grid (height width : nat) (assignment : Assignment)
  : result Grid :=
  fill (repeat (repeat None width) height) assignment.

(** [letters[i][j]] for a cell [(i, j)]. *)
Definition get_cell (letters : Grid) (cell : nat * nat) : option ascii :=
  nth (snd cell) (nth (fst cell) letters []) None.

Definition cell_eqb (c1 c2 : nat * nat) : bool :=
  Nat.eqb (fst c1) (fst c2) && Nat.eqb (snd c1) (snd c2).

(** An array of [height] rows of [width] cells. *)
Definition rectangular (height width : nat) (letters : Grid) : Prop :=
  List.length letters = height
  /\ forall row, In row letters -> List.length row = width.

Definition in_grid (height width : nat) (cell : nat * nat) : Prop :=
  fst cell < height /\ snd cell < width.

(** The grid as a function of the cell: what the writes of one word, and
    of all entries in turn, make of it. *)
Fixpoint paint_word (variable : Var.t) (word : string) (ks : list nat)
         (f : nat * nat -> option ascii) : nat * nat -> option ascii :=
  match ks with
  | [] => f
  | k :: ks' =>
      paint_word variable word ks'
                 (fun cell => if cell_eqb cell (cell_of variable k)
                              then String.get k word else f cell)
  end.

Fixpoint paint (items : Assignment) (f : nat * nat -> option ascii)
  : nat * nat -> option ascii :=
  match items with
  | [] => f
  | (variable, None) :: rest => paint rest f
  | (variable, Some word) :: rest =>
      paint rest (paint_word variable word (seq 0 (String.length word)) f)
  end.

(** The entries that share a cell have the same letter there. *)
Definition agree (a : Assignment) : Prop :=
  forall v1 w1 k1 v2 w2 k2,
    In (v1, Some w1) a -> In (v2, Some w2) a ->
    k1 < String.length w1 -> k2 < String.length w2 ->
    cell_of v1 k1 = cell_of v2 k2 ->
    String.get k1 w1 = String.get k2 w2.

(** Every entry holds a word, and the word stays inside the grid. *)
Definition fits_grid (height width : nat) (a : Assignment) : Prop :=
  forall e, In e a ->
            exists word, snd e = Some word
                         /\ forall k, k < String.length word ->
                                      in_grid height width (cell_of (fst e) k).


(** The slots of the puzzle lie inside the grid. *)
Definition slots_in_grid (height width : nat) (c : Crossword) : Prop :=
  forall v k, In v (variables c) -> k < Var.length v ->
              in_grid height width (cell_of v k).

(** Two different slots that share a cell are neighbors, and the overlap
    recorded for them is that cell. *)
Definition crossings_recorded (c : Crossword) : Prop :=
  forall v u i j,
    In v (variables c) -> In u (variables c) -> v <> u ->
    i < Var.length v -> j < Var.length u ->
    cell_of v i = cell_of u j ->
    In u (neighbors c v) /\ overlaps c (v, u) = Some (Some (i, j)).


(** * Proofs *)

Unset Implicit Arguments.

(** ** Equality of variables *)

Lemma Direction_eqb_eq a b : Direction_eqb a b = true <-> a = b.
Proof. destruct a, b; simpl; split; congruence. Qed.

Lemma Var_eqb_eq a b : Var.eqb a b = true <-> a = b.
Proof.
  destruct a as [ai aj ad al], b as [bi bj bd bl]; unfold Var.eqb; simpl.
  rewrite !andb_true_iff, !Nat.eqb_eq, Direction_eqb_eq.
  split.
  - intros [[[-> ->] ->] ->]; reflexivity.
  - intros H; injection H; intros; subst; auto.
Qed.

Lemma Var_eqb_refl a : Var.eqb a a = true.
Proof. apply Var_eqb_eq; reflexivity. Qed.

Lemma Var_eqb_neq a b : Var.eqb a b = false <-> a <> b.
Proof.
  rewrite <- Var_eqb_eq. destruct (Var.eqb a b); split; congruence.
Qed.

Lemma Var_eq_dec (a b : Var.t) : {a = b} + {a <> b}.
Proof.
  destruct (Var.eqb a b) eqn:E.
  - left; now apply Var_eqb_eq.
  - right; now apply Var_eqb_neq.
Qed.

Ltac var_eq a b :=
  let E := fresh "E" in
  destruct (Var.eqb a b) eqn:E;
  [apply Var_eqb_eq in E; try subst | apply Var_eqb_neq in E].

(** ** Dicts *)

Section DictFacts.
Context {V : Type}.
Implicit Types (m : dict V) (k : Var.t) (v : V).

Lemma lookup_assign_eq m k v : lookup (assign m k v) k = Some v.
Proof.
  induction m as [|[k' v'] m IH]; simpl.
  - now rewrite Var_eqb_refl.
  - destruct (Var.eqb k' k) eqn:E; simpl; rewrite E; auto.
Qed.

Lemma lookup_assign_neq m k k' v :
  k' <> k -> lookup (assign m k v) k' = lookup m k'.
Proof.
  intros N; induction m as [|[k0 v0] m IH]; simpl.
  - apply Var_eqb_neq in N.
    destruct (Var.eqb k k') eqn:E; auto.
    apply Var_eqb_eq in E; subst. now rewrite Var_eqb_refl in N.
  - destruct (Var.eqb k0 k) eqn:E; simpl.
    + apply Var_eqb_eq in E; subst k0.
      destruct (Var.eqb k k') eqn:E'; auto.
      apply Var_eqb_eq in E'; congruence.
    + destruct (Var.eqb k0 k'); auto.
Qed.

Lemma lookup_assign m k k' v :
  lookup (assign m k v) k' = if Var.eqb k k' then Some v else lookup m k'.
Proof.
  var_eq k k'.
  - apply lookup_assign_eq.
  - apply lookup_assign_neq; congruence.
Qed.

Lemma lookup_In m k v : lookup m k = Some v -> In (k, v) m.
Proof.
  induction m as [|[k' v'] m IH]; simpl; [discriminate|].
  var_eq k' k.
  - intros [= ->]; auto.
  - auto.
Qed.

Lemma lookup_None m k : lookup m k = None <-> ~ In k (keys m).
Proof.
  induction m as [|[k' v'] m IH]; simpl; [tauto|].
  var_eq k' k.
  - split; [discriminate | tauto].
  - rewrite IH; split; [intros H [?|?]; tauto | tauto].
Qed.

Lemma lookup_Some_key m k v : lookup m k = Some v -> In k (keys m).
Proof. intros H; apply lookup_In in H. apply (in_map fst) in H; exact H. Qed.

Lemma key_lookup m k : In k (keys m) -> exists v, lookup m k = Some v.
Proof.
  intros H. destruct (lookup m k) eqn:E; eauto.
  apply lookup_None in E; tauto.
Qed.

Lemma has_key_true m k : has_key m k = true <-> In k (keys m).
Proof.
  unfold has_key. destruct (lookup m k) eqn:E.
  - split; auto. intros _. eapply lookup_Some_key; eauto.
  - apply lookup_None in E. split; [discriminate | tauto].
Qed.

Lemma has_key_false m k : has_key m k = false <-> ~ In k (keys m).
Proof.
  rewrite <- has_key_true. destruct (has_key m k); split; congruence.
Qed.

Lemma keys_assign_present m k v :
  In k (keys m) -> keys (assign m k v) = keys m.
Proof.
  induction m as [|[k' v'] m IH]; simpl; [tauto|].
  var_eq k' k; simpl; auto.
  intros [?|?]; [congruence|]. f_equal; auto.
Qed.

Lemma keys_assign_absent m k v :
  ~ In k (keys m) -> keys (assign m k v) = keys m ++ [k].
Proof.
  induction m as [|[k' v'] m IH]; simpl; auto.
  var_eq k' k; simpl; [tauto|].
  intros H; f_equal; apply IH; tauto.
Qed.

Lemma keys_assign_incl m k v k' :
  In k' (keys m) -> In k' (keys (assign m k v)).
Proof.
  intros H. destruct (in_dec Var_eq_dec k (keys m)).
  - now rewrite keys_assign_present.
  - rewrite keys_assign_absent by auto. apply in_or_app; auto.
Qed.

Lemma keys_assign_key m k v : In k (keys (assign m k v)).
Proof. eapply lookup_Some_key, lookup_assign_eq. Qed.

Lemma keys_assign_inv m k v k' :
  In k' (keys (assign m k v)) -> k' = k \/ In k' (keys m).
Proof.
  destruct (in_dec Var_eq_dec k (keys m)).
  - rewrite keys_assign_present by auto; auto.
  - rewrite keys_assign_absent by auto. intros H.
    apply in_app_or in H as [?|[?|[]]]; auto.
Qed.
End DictFacts.

(** ** Revise and AC-3 only remove words *)

Lemma shrinks_refl d : shrinks d d.
Proof.
  split; auto. intros v ws H; exists ws; split; auto using incl_refl.
Qed.

Lemma shrinks_trans d1 d2 d3 : shrinks d1 d2 -> shrinks d2 d3 -> shrinks d1 d3.
Proof.
  intros [K12 H12] [K23 H23]; split; [congruence|].
  intros v ws3 L3.
  destruct (H23 _ _ L3) as (ws2 & L2 & I23).
  destruct (H12 _ _ L2) as (ws1 & L1 & I12).
  exists ws1; split; auto. eapply incl_tran; eauto.
Qed.

Lemma shrinks_assign d x dx ws :
  lookup d x = Some dx -> incl ws dx -> shrinks d (assign d x ws).
Proof.
  intros L I; split.
  - apply keys_assign_present. eapply lookup_Some_key; eauto.
  - intros v ws'. rewrite lookup_assign. var_eq x v.
    + intros [= <-]; eauto.
    + intros H; exists ws'; split; auto using incl_refl.
Qed.

Lemma revise_inv c x y d : revise_outcome c x y d (revise c x y d).
Proof.
  unfold revise.
  destruct (overlaps c (x, y)) as [[[i j]|]|] eqn:O;
    try (constructor; discriminate).
  destruct (lookup d x) as [dx|] eqn:L; [|constructor; discriminate].
  destruct (values_to_remove d y i j dx) as [[|w rm]| |] eqn:R;
    try (constructor; discriminate).
  eapply revise_removed; eauto. discriminate.
Qed.

Lemma revise_shrinks c x y d : shrinks d (snd (revise c x y d)).
Proof.
  destruct (revise_inv c x y d); simpl.
  - apply shrinks_refl.
  - eapply shrinks_assign; eauto. apply incl_filter.
Qed.

Lemma revise_frame c x y d v :
  v <> x -> lookup (snd (revise c x y d)) v = lookup d v.
Proof.
  intros N. destruct (revise_inv c x y d); simpl; auto.
  apply lookup_assign_neq; auto.
Qed.

Lemma revise_no_overlap c x y d :
  no_overlap c x y -> revise c x y d = (Ret false, d).
Proof. unfold revise; intros [-> | ->]; reflexivity. Qed.

Lemma run_queue_shrinks c continue :
  (forall q d, shrinks d (snd (continue q d))) ->
  forall q d, shrinks d (snd (run_queue c continue q d)).
Proof.
  intros HC q; induction q as [|[X Y] rest IH]; intros d; simpl.
  - apply shrinks_refl.
  - pose proof (revise_shrinks c X Y d) as HR.
    destruct (revise c X Y d) as [[[|]| |] d']; simpl in *; auto.
    + destruct (lookup d' X) as [[|]|]; simpl; auto.
      eapply shrinks_trans; eauto.
    + eapply shrinks_trans; eauto.
Qed.

Lemma ac3_loop_shrinks c fuel :
  forall q d, shrinks d (snd (ac3_loop c fuel q d)).
Proof.
  induction fuel as [|fuel IH]; simpl; intros q d.
  - apply shrinks_refl.
  - now apply run_queue_shrinks.
Qed.

Lemma ac3_shrinks c arcs d : shrinks d (snd (ac3 c arcs d)).
Proof. apply ac3_loop_shrinks. Qed.

(** C8: [revise] and [ac3], whatever the arcs, leave every domain a subset
    of what it was; [revise x y] touches the domain of [x] alone, and
    without a recorded overlap it changes nothing and answers [False]. *)
Theorem domains_only_shrink c x y arcs d :
  shrinks d (snd (revise c x y d))
  /\ shrinks d (snd (ac3 c arcs d))
  /\ (forall v, v <> x -> lookup (snd (revise c x y d)) v = lookup d v)
  /\ (no_overlap c x y -> revise c x y d = (Ret false, d)).
Proof.
  repeat split.
  - apply revise_shrinks.
  - apply revise_shrinks.
  - apply ac3_shrinks.
  - apply ac3_shrinks.
  - intros; now apply revise_frame.
  - apply revise_no_overlap.
Qed.

Lemma domains_only_shrink_witness :
  revise (Examples.two_slots []) Examples.X Examples.X [] = (Ret false, []).
Proof.
  apply (proj2 (proj2 (proj2
           (domains_only_shrink (Examples.two_slots []) Examples.X Examples.X
                                None [])))).
  left; reflexivity.
Defined.

(** ** Node consistency *)

Lemma filter_fits_idem var ws :
  filter (fits var) (filter (fits var) ws) = filter (fits var) ws.
Proof.
  induction ws as [|w ws IH]; simpl; auto.
  destruct (fits var w) eqn:E; simpl; rewrite ?E; congruence.
Qed.

Lemma prune_step_refl d : prune_step d d.
Proof. split; auto. Qed.

Lemma prune_step_trans d1 d2 d3 :
  prune_step d1 d2 -> prune_step d2 d3 -> prune_step d1 d3.
Proof.
  intros [K12 H12] [K23 H23]; split; [congruence|].
  intros v. destruct (H12 v) as [E12|E12], (H23 v) as [E23|E23];
    rewrite E23, E12; auto.
  right. destruct (lookup d1 v); simpl; auto.
  now rewrite filter_fits_idem.
Qed.

Lemma prune_step_assign d var ws :
  lookup d var = Some ws -> prune_step d (assign d var (filter (fits var) ws)).
Proof.
  intros L; split.
  - apply keys_assign_present. eapply lookup_Some_key; eauto.
  - intros v. rewrite lookup_assign. var_eq var v.
    + right. now rewrite L.
    + now left.
Qed.

Lemma enforce_loop_spec todo :
  forall d r d',
    enforce_loop todo d = (r, d') ->
    prune_step d d' /\
    match r with
    | Ret _ =>
        forall v, In v todo ->
                  exists ws', lookup d' v = Some ws'
                              /\ filter (fits v) ws' = ws' /\ ws' <> []
    | Raise (NoValuesLeft v) => In v todo /\ lookup d' v = Some []
    | Raise KeyError => exists v, In v todo /\ lookup d v = None
    | _ => False
    end.
Proof.
  induction todo as [|var rest IH]; simpl; intros d r d' H.
  - injection H as <- <-. split; [apply prune_step_refl | intros v []].
  - destruct (lookup d var) as [ws|] eqn:L.
    2:{ injection H as <- <-. split; [apply prune_step_refl | eauto]. }
    pose proof (prune_step_assign d var ws L) as S1.
    destruct (filter (fits var) ws) as [|w0 f] eqn:F.
    + injection H as <- <-. split; auto. split; auto.
      apply lookup_assign_eq.
    + apply IH in H as [S2 HR].
      split; [eapply prune_step_trans; eauto|].
      destruct r as [[]|[]|]; auto.
      * assert (filter (fits var) (w0 :: f) = w0 :: f) as FF
            by (rewrite <- F; apply filter_fits_idem).
        intros v [<-|Hv]; auto.
        exists (w0 :: f). split; [|split; [auto|discriminate]].
        destruct S2 as [_ S2]. destruct (S2 var) as [->| ->];
          rewrite lookup_assign_eq; auto.
        unfold option_map. now rewrite FF.
      * tauto.
      * destruct HR as (v & Hv & N). exists v; split; auto.
        apply lookup_None in N. apply lookup_None.
        destruct S1 as [K1 _]. now rewrite <- K1.
Qed.

Lemma P_loop_eq todo : forall d, P.loop todo d = enforce_loop todo d.
Proof.
  induction todo as [|var rest IH]; simpl; intros d; [reflexivity|].
  destruct (lookup d var); [|reflexivity].
  destruct (filter (fits var) l); [reflexivity | apply IH].
Qed.

Lemma lookup_init_domains c v ws :
  lookup (init_domains c) v = Some ws -> ws = words c.
Proof.
  unfold init_domains. induction (variables c) as [|x l IH]; simpl.
  - discriminate.
  - destruct (Var.eqb x v); auto. congruence.
Qed.

Lemma keys_init_domains c : keys (init_domains c) = variables c.
Proof.
  unfold init_domains, keys. rewrite map_map; simpl. apply map_id.
Qed.

Lemma enforce_ret d d' :
  enforce_node_consistency d = (Ret tt, d') ->
  keys d' = keys d /\
  forall v ws, lookup d v = Some ws ->
               lookup d' v = Some (filter (fits v) ws)
               /\ filter (fits v) ws <> [].
Proof.
  intros H. apply enforce_loop_spec in H as [[K S] HR]. split; auto.
  intros v ws L.
  destruct (HR v) as (ws' & L' & F' & N').
  { eapply lookup_Some_key; eauto. }
  assert (ws' = filter (fits v) ws) as ->.
  { destruct (S v) as [E|E]; rewrite L', L in E; simpl in E;
      injection E as E; congruence. }
  auto.
Qed.

Lemma enforce_raise d e d' :
  enforce_node_consistency d = (Raise e, d') ->
  exists v ws, e = NoValuesLeft v /\ lookup d' v = Some []
               /\ lookup d v = Some ws /\ filter (fits v) ws = [].
Proof.
  intros H. apply enforce_loop_spec in H as [[K S] HR].
  destruct e as [v| | | |]; try tauto.
  - destruct HR as [Hv L']. exists v.
    destruct (S v) as [E|E]; rewrite L' in E.
    + exists []; auto.
    + destruct (lookup d v) as [ws|]; simpl in E; [|discriminate].
      exists ws. injection E as E. auto.
  - destruct HR as (v & Hv & N). apply lookup_None in N. tauto.
Qed.

Lemma enforce_no_fuel d d' : enforce_node_consistency d <> (OutOfFuel, d').
Proof. intros H. apply enforce_loop_spec in H as [_ []]. Qed.

(** C9: when node consistency returns, every domain holds exactly its words
    of the variable's length; it raises the error naming a variable exactly
    when some variable is left without a word, the variable named being one
    of those; [solve] then raises that error and answers no "no solution".
    The function of [p.py] is the same one. *)
Theorem node_consistency_spec (c : Crossword) (d : Domains) :
  (forall d', enforce_node_consistency d = (Ret tt, d') ->
              keys d' = keys d /\
              forall v ws, lookup d v = Some ws ->
                           lookup d' v = Some (filter (fits v) ws))
  /\ ((exists v d', enforce_node_consistency d = (Raise (NoValuesLeft v), d'))
      <-> exists v ws, lookup d v = Some ws /\ filter (fits v) ws = [])
  /\ (forall e d', enforce_node_consistency d = (Raise e, d') ->
                   exists v ws, e = NoValuesLeft v /\ lookup d' v = Some []
                                /\ lookup d v = Some ws
                                /\ filter (fits v) ws = [])
  /\ (forall v d', enforce_node_consistency (init_domains c)
                   = (Raise (NoValuesLeft v), d') ->
                   In v (variables c)
                   /\ (forall w, In w (words c) ->
                                 String.length w <> Var.length v)
                   /\ solve c = (Raise (NoValuesLeft v), [NodeConsistency]))
  /\ P.enforce_node_consistency d = enforce_node_consistency d.
Proof.
  repeat apply conj.
  - intros d' H. apply enforce_ret in H as [K H]. split; auto.
    intros v ws L. now apply H.
  - intros (v & d' & H). apply enforce_raise in H as (v' & ws & _ & _ & L & F).
    eauto.
  - intros (v & ws & L & F).
    destruct (enforce_node_consistency d) as [[[]|e|] d'] eqn:H.
    + apply enforce_ret in H as [_ H]. apply H in L. tauto.
    + pose proof H as H'.
      apply enforce_raise in H' as (v' & _ & -> & _). eauto.
    + now apply enforce_no_fuel in H.
  - intros e d'. apply enforce_raise.
  - intros v d' H. pose proof H as H'.
    apply enforce_raise in H' as (v' & ws & [= <-] & _ & L & F).
    split; [|split].
    + rewrite <- keys_init_domains. eapply lookup_Some_key; eauto.
    + apply lookup_init_domains in L; subst ws. intros w Hw E.
      assert (In w (filter (fits v) (words c))) as I.
      { apply filter_In; split; auto. now apply Nat.eqb_eq. }
      now rewrite F in I.
    + unfold solve. now rewrite H.
  - apply P_loop_eq.
Qed.

Lemma node_consistency_spec_witness :
  solve (Examples.one_slot ["cat"; "dog"])
  = (Raise (NoValuesLeft Examples.W), [NodeConsistency]).
Proof.
  eapply (proj1 (proj2 (proj2 (proj2
            (node_consistency_spec (Examples.one_slot ["cat"; "dog"]) []))))).
  reflexivity.
Defined.

(** ** Value ordering *)

Lemma count_occ_as_difference (value : word) (dn : list word) :
  List.length dn
  - List.length (filter (fun val => negb (String.eqb val value)) dn)
  = count_occ string_dec dn value.
Proof.
  induction dn as [|w dn IH]; [reflexivity|].
  pose proof (filter_length_le (fun val => negb (String.eqb val value)) dn).
  cbn [filter count_occ List.length].
  destruct (string_dec w value) as [->|N].
  - rewrite String.eqb_refl. cbn [negb]. lia.
  - apply String.eqb_neq in N. rewrite N. cbn [negb List.length]. lia.
Qed.

Lemma count_conflicts_over_spec d a value ns :
  (forall n, In n ns -> In n (keys d)) ->
  count_conflicts_over d a value ns
  = Ret (list_sum
           (map (fun n => count_occ string_dec (domain d n) value)
                (filter (fun n => negb (has_key a n)) ns))).
Proof.
  induction ns as [|n ns IH]; simpl; intros K; auto.
  rewrite IH by auto.
  destruct (has_key a n); simpl; auto.
  destruct (key_lookup d n) as [dn L]; auto.
  unfold domain. rewrite L. now rewrite count_occ_as_difference.
Qed.

Lemma with_keys_total (A : Type) (key : A -> result nat) (f : A -> nat) l :
  (forall x, In x l -> key x = Ret (f x)) ->
  with_keys key l = Ret (map (fun x => (f x, x)) l).
Proof.
  induction l as [|x l IH]; simpl; intros H; auto.
  rewrite H, IH; auto.
Qed.

Section SortKeyed.
Context {A : Type}.
Implicit Types (x : nat * A) (l : list (nat * A)).

Lemma insert_keyed_perm x l : Permutation (x :: l) (insert_keyed x l).
Proof.
  induction l as [|y l IH]; simpl; auto.
  destruct (Nat.leb (fst x) (fst y)); auto.
  eapply perm_trans; [apply perm_swap|]. now constructor.
Qed.

Lemma sort_keyed_perm l : Permutation l (sort_keyed l).
Proof.
  induction l as [|x l IH]; simpl; auto.
  eapply perm_trans; [|apply insert_keyed_perm]. now constructor.
Qed.

Lemma insert_keyed_sorted x l :
  StronglySorted (@by_key A) l -> StronglySorted (@by_key A) (insert_keyed x l).
Proof.
  induction l as [|y l IH]; simpl; intros S.
  - repeat constructor.
  - inversion S as [|? ? S' F]; subst.
    destruct (Nat.leb (fst x) (fst y)) eqn:E.
    + apply Nat.leb_le in E. constructor; auto. constructor; auto.
      eapply Forall_impl; [|exact F]. unfold by_key; intros; lia.
    + apply Nat.leb_gt in E. constructor; auto.
      eapply Permutation_Forall; [apply insert_keyed_perm|].
      constructor; auto. unfold by_key; lia.
Qed.

Lemma sort_keyed_sorted l : StronglySorted (@by_key A) (sort_keyed l).
Proof.
  induction l as [|x l IH]; simpl; [constructor|].
  now apply insert_keyed_sorted.
Qed.
End SortKeyed.

Lemma sorted_spec (key : word -> result nat) (f : word -> nat) ws :
  (forall w, In w ws -> key w = Ret (f w)) ->
  exists l, sorted key ws = Ret l /\ Permutation ws l /\ ascending f l.
Proof.
  intros K. unfold sorted. rewrite (with_keys_total _ key f ws K).
  set (kl := map (fun x => (f x, x)) ws).
  exists (map snd (sort_keyed kl)). split; [reflexivity|]. split.
  - replace ws with (map snd kl).
    + apply Permutation_map, sort_keyed_perm.
    + unfold kl. rewrite map_map; simpl. apply map_id.
  - assert (Forall (fun x => fst x = f (snd x)) (sort_keyed kl)) as F.
    { eapply Permutation_Forall; [apply sort_keyed_perm|].
      unfold kl. apply Forall_forall. intros x Hx.
      apply in_map_iff in Hx as (w & <- & _). reflexivity. }
    pose proof (sort_keyed_sorted kl) as S.
    unfold ascending.
    induction S as [|x l S IH Hx]; simpl; [constructor|].
    inversion F as [|? ? Fx Fl]; subst.
    constructor; auto.
    apply Forall_forall. intros w Hw.
    apply in_map_iff in Hw as (y & <- & Hy).
    rewrite Forall_forall in Hx, Fl.
    specialize (Hx y Hy). unfold by_key in Hx.
    rewrite Fx, (Fl y Hy) in Hx. exact Hx.
Qed.

(** The order [order_domain_values] answers, on the sum the code computes. *)
Lemma order_domain_values_conflicts c d var a ws :
  lookup d var = Some ws ->
  (forall n, In n (neighbors c var) -> In n (keys d)) ->
  exists l, order_domain_values c d var a = Ret l
            /\ Permutation ws l /\ ascending (conflicts c d a var) l.
Proof.
  intros L K. unfold order_domain_values. rewrite L.
  apply sorted_spec. intros w _.
  unfold count_conflicts, conflicts. now apply count_conflicts_over_spec.
Qed.

Lemma no_marker_assigned a n : no_marker a -> has_key a n = is_assigned a n.
Proof.
  intros M. unfold has_key, is_assigned. specialize (M n).
  destruct (lookup a n) as [[w|]|]; congruence.
Qed.

Lemma conflicts_score_equal c d a var value :
  no_marker a -> conflicts c d a var value = score_equal c d a var value.
Proof.
  intros M. unfold conflicts, score_equal, unassigned_neighbors.
  f_equal. f_equal. apply filter_ext. intros n. now rewrite no_marker_assigned.
Qed.

(** C6, as amended: for a variable whose domain and whose neighbors'
    domains are in the store, and an assignment that maps no variable to
    [None], [order_domain_values] returns the words of the variable's
    domain in ascending order of the number of entries, over the unassigned
    neighbors' domains, that are equal to the candidate. *)
Theorem order_domain_values_spec c d var a ws :
  lookup d var = Some ws ->
  (forall n, In n (neighbors c var) -> In n (keys d)) ->
  no_marker a ->
  exists l, order_domain_values c d var a = Ret l
            /\ Permutation ws l /\ ascending (score_equal c d a var) l.
Proof.
  intros L K M.
  destruct (order_domain_values_conflicts c d var a ws L K) as (l & E & P & S).
  exists l. split; auto. split; auto.
  unfold ascending in *. clear - S M.
  induction S as [|w l S IH F]; constructor; auto.
  eapply Forall_impl; [|exact F].
  intros w'. now rewrite !conflicts_score_equal.
Qed.

(** C6, as written, fails: with the neighbor's domain holding "cat" and
    "tap", "dog" comes before "cat" although more of the neighbor's entries
    differ from "dog" than from "cat". *)
Lemma order_domain_values_not_by_unequal :
  let c := Examples.two_slots [] in
  let d := [(Examples.X, ["cat"; "dog"]); (Examples.Y, ["cat"; "tap"])] in
  order_domain_values c d Examples.X [] = Ret ["dog"; "cat"]
  /\ score_unequal c d [] Examples.X "dog" = 2
  /\ score_unequal c d [] Examples.X "cat" = 1
  /\ ~ ascending (score_unequal c d [] Examples.X) ["dog"; "cat"].
Proof.
  repeat split.
  intros H. inversion H as [|? ? _ F]; subst.
  inversion F as [|? ? Hle _]; subst.
  vm_compute in Hle. lia.
Qed.

Lemma order_domain_values_spec_witness :
  let c := Examples.two_slots [] in
  let d := [(Examples.X, ["cat"; "dog"]); (Examples.Y, ["cat"; "tap"])] in
  exists l, order_domain_values c d Examples.X [] = Ret l
            /\ Permutation ["cat"; "dog"] l
            /\ ascending (score_equal c d [] Examples.X) l.
Proof.
  apply order_domain_values_spec.
  - reflexivity.
  - simpl. intros n [<-|[]]; auto.
  - intros v; discriminate.
Defined.

(** ** Variable selection *)

Lemma key_ltb_false k1 k2 : key_ltb k1 k2 = false <-> key_le k2 k1.
Proof.
  unfold key_ltb, key_le.
  rewrite orb_false_iff, andb_false_iff, Nat.ltb_ge, Nat.eqb_neq, Z.ltb_ge.
  lia.
Qed.

Lemma key_ltb_true k1 k2 : key_ltb k1 k2 = true -> key_le k1 k2.
Proof.
  unfold key_ltb, key_le.
  rewrite orb_true_iff, andb_true_iff, Nat.ltb_lt, Nat.eqb_eq, Z.ltb_lt.
  lia.
Qed.

Lemma key_le_refl k : key_le k k.
Proof. unfold key_le; lia. Qed.

Lemma key_le_trans k1 k2 k3 : key_le k1 k2 -> key_le k2 k3 -> key_le k1 k3.
Proof. unfold key_le; lia. Qed.

Lemma min_from_spec {A : Type} (key : A -> nat * Z) l :
  forall best,
    In (min_from key best l) (best :: l)
    /\ forall x, In x (best :: l) -> key_le (key (min_from key best l)) (key x).
Proof.
  induction l as [|y l IH]; simpl; intros best.
  - split; auto. intros x [<-|[]]. apply key_le_refl.
  - destruct (IH (if key_ltb (key y) (key best) then y else best)) as [I M].
    split.
    + destruct I as [I|I]; [|auto].
      rewrite <- I. destruct (key_ltb (key y) (key best)); auto.
    + assert (key_le (key (if key_ltb (key y) (key best) then y else best))
                     (key best)
              /\ key_le (key (if key_ltb (key y) (key best) then y else best))
                        (key y)) as [Lb Ly].
      { destruct (key_ltb (key y) (key best)) eqn:E.
        - split; [now apply key_ltb_true | apply key_le_refl].
        - split; [apply key_le_refl | now apply key_ltb_false]. }
      intros x [<-|[<-|Hx]].
      * eapply key_le_trans; [|exact Lb]. apply M; simpl; auto.
      * eapply key_le_trans; [|exact Ly]. apply M; simpl; auto.
      * apply M; simpl; auto.
Qed.

Lemma unassigned_In d a v :
  In v (unassigned d a) <-> In v (keys d) /\ ~ In v (keys a).
Proof.
  unfold unassigned. rewrite filter_In, negb_true_iff, has_key_false. tauto.
Qed.

(** What [select_unassigned_variable] answers, in terms of the keys: the
    first variable of the store, among those that are no keys of the
    assignment, with the fewest words and then the highest degree. *)
Lemma select_unassigned_variable_keys d a :
  match select_unassigned_variable d a with
  | Ret v =>
      In v (unassigned d a)
      /\ forall u, In u (unassigned d a) ->
                   List.length (domain d v) <= List.length (domain d u)
                   /\ (List.length (domain d u) = List.length (domain d v) ->
                       degree d u <= degree d v)
  | Raise e => e = EmptyMin /\ unassigned d a = []
  | OutOfFuel => False
  end.
Proof.
  unfold select_unassigned_variable, py_min.
  destruct (unassigned d a) as [|x l]; auto.
  destruct (min_from_spec (select_key d) l x) as [I M]. split; auto.
  intros u Hu. specialize (M u Hu).
  set (v := min_from (select_key d) x l) in *.
  unfold key_le, select_key in M; simpl in M. lia.
Qed.

(** Variable selection on an assignment without [None] entries: when some
    variable of the store is unassigned, [select_unassigned_variable]
    returns an unassigned variable whose domain is smallest among the
    unassigned ones and, among those, one of highest degree, the degree
    counting the other variables whose domain shares a word with it. *)
Theorem select_unassigned_variable_spec d a :
  no_marker a ->
  (exists u, In u (keys d) /\ is_assigned a u = false) ->
  exists v,
    select_unassigned_variable d a = Ret v
    /\ In v (keys d) /\ is_assigned a v = false
    /\ forall u, In u (keys d) -> is_assigned a u = false ->
                 List.length (domain d v) <= List.length (domain d u)
                 /\ (List.length (domain d u) = List.length (domain d v) ->
                     degree d u <= degree d v).
Proof.
  intros M (u0 & K0 & U0).
  assert (forall u, In u (unassigned d a)
                    <-> In u (keys d) /\ is_assigned a u = false) as Un.
  { intros u. rewrite unassigned_In, <- has_key_false.
    now rewrite (no_marker_assigned a u M). }
  pose proof (select_unassigned_variable_keys d a) as S.
  destruct (select_unassigned_variable d a) as [v|e|]; [|exfalso|tauto].
  - destruct S as [I Min]. apply Un in I as [Kv Uv].
    exists v. repeat split; auto; apply Min, Un; auto.
  - destruct S as [_ E]. assert (In u0 (unassigned d a)) as I by (apply Un; auto).
    now rewrite E in I.
Qed.

(** Four variables, one of them assigned: of the three left, [Y] has the
    larger domain, and of [X] and [Z], with two words each, only [Z] shares
    a word with another variable; [Z] is returned although [X] comes
    first. *)
Lemma select_unassigned_variable_spec_witness :
  let d := [(Examples.X, ["aaa"; "bbb"]);
            (Examples.Y, ["ccc"; "ddd"; "eee"]);
            (Examples.Z, ["ccc"; "fff"]);
            (Examples.W, ["gggg"])] in
  let a := [(Examples.W, Some "gggg")] in
  exists v,
    select_unassigned_variable d a = Ret v
    /\ v = Examples.Z
    /\ List.length (domain d v) < List.length (domain d Examples.Y)
    /\ List.length (domain d v) = List.length (domain d Examples.X)
    /\ degree d Examples.X < degree d v.
Proof.
  intros d a.
  destruct (select_unassigned_variable_spec d a) as (v & E & _).
  - intros v. simpl. destruct (Var.eqb Examples.W v); discriminate.
  - exists Examples.Y. split; [simpl; auto | reflexivity].
  - exists v. split; [exact E|]. vm_compute in E. injection E as <-.
    repeat split; vm_compute; lia.
Defined.

(** C7 fails on the code.  The search on the three-slot puzzle leaves the
    assignment X=abc, Y=cfg, Z=[None], written by the undo of [backtrack]:
    [Z] is a variable of the store that holds no word, the only one, and
    [assignment_complete] counts it as unassigned, so the claim asks for
    [Z]; but [Z] is a key, [select_unassigned_variable] finds no candidate
    and raises the [ValueError] of [min] on an empty sequence. *)
Theorem select_skips_marked_variable :
  let d := [(Examples.X, ["abc"; "cde"]);
            (Examples.Y, ["cde"; "cfg"; "ehi"]);
            (Examples.Z, ["abc"; "cde"; "cfg"])] in
  let a := [(Examples.X, Some "abc"); (Examples.Y, Some "cfg");
            (Examples.Z, None)] in
  snd (backtrack Examples.three_slots d []) = a
  /\ In Examples.Z (keys d)
  /\ is_assigned a Examples.Z = false
  /\ (forall u, In u (keys d) -> is_assigned a u = false -> u = Examples.Z)
  /\ assignment_complete Examples.three_slots a = false
  /\ select_unassigned_variable d a = Raise EmptyMin.
Proof.
  repeat split; simpl; auto.
  intros u [<-|[<-|[<-|[]]]]; vm_compute; congruence.
Qed.

(** ** The consistency predicate and search on the three-slot puzzle *)

(** C2 fails on the code: two entries mapped to [None] are two equal values
    for the uniqueness test, so adding them to a consistent assignment makes
    [consistent] answer [False]. *)
Theorem consistent_counts_markers_as_duplicates :
  consistent Examples.three_slots [(Examples.X, Some "cde")] = Ret true
  /\ consistent Examples.three_slots
       [(Examples.X, Some "cde"); (Examples.Y, None); (Examples.Z, None)]
     = Ret false.
Proof. split; reflexivity. Qed.

(** C1 fails on the code: on the three-slot puzzle with the words abc, cde,
    cfg, ehi the domains survive node and arc consistency, the assignment
    X=cde, Y=ehi, Z=cfg is complete, consistent and within the domains, and
    the search raises the [ValueError] of [min] on an empty sequence. *)
Theorem backtrack_misses_solution :
  let c := Examples.three_slots in
  let d := [(Examples.X, ["abc"; "cde"]);
            (Examples.Y, ["cde"; "cfg"; "ehi"]);
            (Examples.Z, ["abc"; "cde"; "cfg"])] in
  let a := [(Examples.X, Some "cde"); (Examples.Y, Some "ehi");
            (Examples.Z, Some "cfg")] in
  ac3 c None (snd (enforce_node_consistency (init_domains c))) = (Ret true, d)
  /\ assignment_complete c a = true
  /\ consistent c a = Ret true
  /\ from_domains d a = true
  /\ fst (backtrack c d []) = Raise EmptyMin
  /\ solve c = (Raise EmptyMin, [NodeConsistency; ArcConsistency; Search]).
Proof. repeat split; vm_compute; reflexivity. Qed.

(** ** Backtracking: what a failed search leaves behind *)

Lemma marked_at_refl a v : marked_at a a v.
Proof. now left. Qed.

Lemma marked_at_trans a1 a2 a3 v :
  marked_at a1 a2 v -> marked_at a2 a3 v -> marked_at a1 a3 v.
Proof.
  unfold marked_at. intros [E12|[N1 E2]] [E23|[N2 E3]].
  - left; congruence.
  - rewrite E12 in N2. auto.
  - right; split; congruence.
  - congruence.
Qed.

Lemma marked_at_other {a s} var x v :
  v <> var -> marked_at a s v -> marked_at a (assign s var x) v.
Proof.
  intros N H. unfold marked_at. now rewrite lookup_assign_neq.
Qed.

Lemma marked_at_keys a a' :
  (forall v, marked_at a a' v) -> forall v, In v (keys a) -> In v (keys a').
Proof.
  intros H v K. apply key_lookup in K as [x L].
  destruct (H v) as [E|[N _]]; [|congruence].
  rewrite L in E. eapply lookup_Some_key; eauto.
Qed.

Lemma try_candidates_failure c recur var candidates :
  (forall s s', recur s = (Ret None, s') -> forall v, marked_at s s' v) ->
  forall s a',
    try_candidates c recur var candidates s = (Ret None, a') ->
    (forall v, v <> var -> marked_at s a' v)
    /\ (candidates = [] -> a' = s)
    /\ (candidates <> [] -> lookup a' var = Some None).
Proof.
  intros HR. induction candidates as [|w rest IH]; simpl; intros s a' H.
  - injection H as <-. repeat split; auto using marked_at_refl. congruence.
  - assert (forall s1,
               (forall v, v <> var -> marked_at s s1 v) ->
               lookup s1 var = Some None ->
               try_candidates c recur var rest s1 = (Ret None, a') ->
               (forall v, v <> var -> marked_at s a' v)
               /\ (w :: rest = [] -> a' = s)
               /\ (w :: rest <> [] -> lookup a' var = Some None)) as Step.
    { intros s1 F1 L1 T. apply IH in T as (F & E & N).
      split; [|split; [discriminate|]].
      - intros v Nv. eapply marked_at_trans; eauto.
      - intros _. destruct rest; [rewrite E; auto | apply N; discriminate]. }
    destruct (consistent c (assign s var (Some w))) as [[|]|e|];
      try discriminate.
    + destruct (recur (assign s var (Some w))) as [[[x|]|e|] a2] eqn:R;
        try discriminate.
      apply Step in H; auto using lookup_assign_eq.
      intros v Nv. apply marked_at_other; auto.
      eapply marked_at_trans; [|eapply HR; eauto].
      apply marked_at_other; auto using marked_at_refl.
    + apply Step in H; auto using lookup_assign_eq.
      intros v Nv. repeat apply marked_at_other; auto using marked_at_refl.
Qed.

Lemma select_Ret_unassigned d a var :
  select_unassigned_variable d a = Ret var ->
  In var (keys d) /\ lookup a var = None.
Proof.
  intros H. pose proof (select_unassigned_variable_keys d a) as S.
  rewrite H in S. destruct S as [I _].
  apply unassigned_In in I as [K N]. split; auto. now apply lookup_None.
Qed.

Lemma backtrack_fuel_failure c d fuel :
  forall a a', backtrack_fuel c d fuel a = (Ret None, a') ->
               forall v, marked_at a a' v.
Proof.
  induction fuel as [|fuel IH]; simpl; intros a a' H; [discriminate|].
  destruct (assignment_complete c a); [discriminate|].
  destruct (select_unassigned_variable d a) as [var| |] eqn:S; try discriminate.
  destruct (order_domain_values c d var a) as [ws| |]; try discriminate.
  apply select_Ret_unassigned in S as [_ N].
  apply try_candidates_failure in H as (F & E & M); auto.
  intros v. destruct (Var_eq_dec v var) as [->|Nv]; auto.
  destruct ws as [|w ws].
  - rewrite E; auto using marked_at_refl.
  - right; split; auto. apply M; discriminate.
Qed.

(** A run of the search never removes a key, however it ends. *)
Lemma try_candidates_keys c recur var candidates :
  (forall s v, In v (keys s) -> In v (keys (snd (recur s)))) ->
  forall s v, In v (keys s) ->
              In v (keys (snd (try_candidates c recur var candidates s))).
Proof.
  intros HR. induction candidates as [|w rest IH]; simpl; intros s v K; auto.
  pose proof (keys_assign_incl s var (Some w) v K) as K1.
  destruct (consistent c (assign s var (Some w))) as [[|]|e|]; simpl; auto.
  - specialize (HR _ _ K1).
    destruct (recur (assign s var (Some w))) as [[[x|]|e|] a2];
      simpl in *; auto.
    apply IH. now apply keys_assign_incl.
  - apply IH. now apply keys_assign_incl.
Qed.

Lemma backtrack_fuel_keys c d fuel :
  forall a v, In v (keys a) -> In v (keys (snd (backtrack_fuel c d fuel a))).
Proof.
  induction fuel as [|fuel IH]; simpl; intros a v K; auto.
  destruct (assignment_complete c a); auto.
  destruct (select_unassigned_variable d a) as [var| |]; auto.
  destruct (order_domain_values c d var a) as [ws| |]; auto.
  now apply try_candidates_keys.
Qed.

Lemma assignment_complete_marker c a v :
  In v (variables c) -> lookup a v = Some None ->
  assignment_complete c a = false.
Proof.
  intros I L. unfold assignment_complete.
  destruct (forallb _ (variables c)) eqn:F; auto.
  rewrite forallb_forall in F. specialize (F v I). now rewrite L in F.
Qed.

(** The search with its trace is the search. *)
Lemma try_candidates_log_erase c recur_log recur var :
  (forall s, fst (recur_log s) = recur s) ->
  forall candidates s,
    fst (try_candidates_log c recur_log var candidates s)
    = try_candidates c recur var candidates s.
Proof.
  intros HR. induction candidates as [|w rest IH]; simpl; intros s; auto.
  destruct (consistent c (assign s var (Some w))) as [[|]|e|]; auto.
  - rewrite <- (HR (assign s var (Some w))).
    destruct (recur_log (assign s var (Some w))) as [[r a2] t].
    destruct r as [[x|]|e|]; simpl; auto.
    rewrite <- (IH (assign a2 var None)).
    now destruct (try_candidates_log c recur_log var rest (assign a2 var None))
      as [[r3 a3] t3].
  - rewrite <- (IH (assign (assign s var (Some w)) var None)).
    now destruct (try_candidates_log c recur_log var rest
                                     (assign (assign s var (Some w)) var None))
      as [[r3 a3] t3].
Qed.

Lemma backtrack_log_fuel_erase c d fuel :
  forall a, fst (backtrack_log_fuel c d fuel a) = backtrack_fuel c d fuel a.
Proof.
  induction fuel as [|fuel IH]; simpl; intros a; auto.
  destruct (assignment_complete c a); auto.
  destruct (select_unassigned_variable d a) as [var| |]; auto.
  destruct (order_domain_values c d var a) as [ws| |]; auto.
  now apply try_candidates_log_erase.
Qed.

Lemma backtrack_log_erase c d a :
  fst (backtrack_log c d a) = backtrack c d a.
Proof. apply backtrack_log_fuel_erase. Qed.

(** An entry changes only if its variable is in the trace. *)
Lemma try_candidates_log_frame c recur var :
  (forall s v, ~ In v (map fst (snd (recur s))) ->
               lookup (snd (fst (recur s))) v = lookup s v) ->
  forall candidates s v,
    ~ In v (map fst (snd (try_candidates_log c recur var candidates s))) ->
    lookup (snd (fst (try_candidates_log c recur var candidates s))) v
    = lookup s v.
Proof.
  intros HR. induction candidates as [|w rest IH]; simpl; intros s v; auto.
  destruct (consistent c (assign s var (Some w))) as [[|]|e|].
  - specialize (HR (assign s var (Some w)) v).
    destruct (recur (assign s var (Some w))) as [[r a2] t].
    cbn [fst snd] in HR.
    assert (forall r' : result (option Assignment),
               ~ In v (map fst (snd ((r', a2, (var, w) :: t)))) ->
                       lookup a2 v = lookup s v) as Stop.
    { simpl. intros _ N. rewrite HR by (intuition congruence).
      apply lookup_assign_neq. intuition congruence. }
    destruct r as [[x|]|e|]; try apply Stop.
    specialize (IH (assign a2 var None) v).
    destruct (try_candidates_log c recur var rest (assign a2 var None))
      as [[r3 a3] t3].
    simpl in *. rewrite map_app, in_app_iff. intros N.
    rewrite IH by (intuition congruence).
    rewrite lookup_assign_neq by (intuition congruence).
    rewrite HR by (intuition congruence).
    apply lookup_assign_neq. intuition congruence.
  - specialize (IH (assign (assign s var (Some w)) var None) v).
    destruct (try_candidates_log c recur var rest
                                 (assign (assign s var (Some w)) var None))
      as [[r3 a3] t3].
    simpl in *. intros N. rewrite IH by (intuition congruence).
    rewrite !lookup_assign_neq by (intuition congruence). reflexivity.
  - simpl. intros N. apply lookup_assign_neq. intuition congruence.
  - simpl. intros N. apply lookup_assign_neq. intuition congruence.
Qed.

Lemma backtrack_log_fuel_frame c d fuel :
  forall a v,
    ~ In v (map fst (snd (backtrack_log_fuel c d fuel a))) ->
    lookup (snd (fst (backtrack_log_fuel c d fuel a))) v = lookup a v.
Proof.
  induction fuel as [|fuel IH]; simpl; intros a v; auto.
  destruct (assignment_complete c a); auto.
  destruct (select_unassigned_variable d a) as [var| |]; auto.
  destruct (order_domain_values c d var a) as [ws| |]; auto.
  now apply try_candidates_log_frame.
Qed.

Lemma marked_at_marker a a' v :
  marked_at a a' v -> lookup a v = Some None -> lookup a' v = Some None.
Proof. intros [E|[N _]] L; congruence. Qed.

Lemma marked_at_absent a a' v :
  marked_at a a' v -> lookup a' v = None -> lookup a v = None.
Proof. intros [E|[N E]] L; congruence. Qed.

(** When the loop fails, every variable of its trace is left at [None],
    and was no key before unless it is the variable of the loop. *)
Lemma try_candidates_log_failure c recur var :
  (forall s s' t,
      recur s = (Ret None, s', t) ->
      (forall v, marked_at s s' v)
      /\ forall v, In v (map fst t) ->
                   lookup s v = None /\ lookup s' v = Some None) ->
  forall candidates s a' t,
    try_candidates_log c recur var candidates s = (Ret None, a', t) ->
    (forall v, v <> var -> marked_at s a' v)
    /\ (candidates = [] -> a' = s)
    /\ (candidates <> [] -> lookup a' var = Some None)
    /\ forall v, In v (map fst t) ->
                 lookup a' v = Some None /\ (v = var \/ lookup s v = None).
Proof.
  intros HR. induction candidates as [|w rest IH]; simpl; intros s a' t H.
  - injection H as <- <-. repeat split; auto using marked_at_refl.
    + congruence.
    + destruct H.
    + destruct H.
  - assert (forall s1 t1 t',
               (forall v, v <> var -> marked_at s s1 v) ->
               lookup s1 var = Some None ->
               (forall v, In v (map fst t1) ->
                          v <> var /\ lookup s v = None
                          /\ lookup s1 v = Some None) ->
               try_candidates_log c recur var rest s1 = (Ret None, a', t') ->
               t = (var, w) :: t1 ++ t' ->
               (forall v, v <> var -> marked_at s a' v)
               /\ (w :: rest = [] -> a' = s)
               /\ (w :: rest <> [] -> lookup a' var = Some None)
               /\ forall v, In v (map fst t) ->
                            lookup a' v = Some None
                            /\ (v = var \/ lookup s v = None)) as Step.
    { intros s1 t1 t' F1 L1 T1 T ->. apply IH in T as (F & E & N & L).
      assert (lookup a' var = Some None) as Lv.
      { destruct rest; [rewrite E; auto | apply N; discriminate]. }
      split; [|split; [discriminate|split; [auto|]]].
      - intros v Nv. eapply marked_at_trans; eauto.
      - simpl. intros v [<-|I]; [auto|].
        rewrite map_app, in_app_iff in I. destruct I as [I|I].
        + destruct (T1 v I) as (Nv & Ls & L1v). split; auto.
          eapply marked_at_marker; eauto.
        + destruct (L v I) as [La' [->|Ls1]]; auto. split; auto.
          destruct (Var_eq_dec v var) as [->|Nv]; auto. right.
          eapply marked_at_absent; eauto. }
    destruct (consistent c (assign s var (Some w))) as [[|]|e|];
      try discriminate.
    + destruct (recur (assign s var (Some w))) as [[r a2] t1] eqn:R.
      destruct r as [[x|]|e|]; try discriminate.
      destruct (HR _ _ _ R) as [M1 T1].
      destruct (try_candidates_log c recur var rest (assign a2 var None))
        as [[r3 a3] t3] eqn:T.
      injection H as -> -> <-.
      apply (Step (assign a2 var None) t1 t3); auto using lookup_assign_eq.
      * intros v Nv. apply marked_at_other; auto.
        eapply marked_at_trans; [|apply M1].
        apply marked_at_other; auto using marked_at_refl.
      * intros v I. destruct (T1 v I) as [L1 L2].
        assert (v <> var) as Nv.
        { intros ->. rewrite lookup_assign_eq in L1. discriminate. }
        split; auto. rewrite lookup_assign_neq in L1 by auto.
        split; auto. rewrite lookup_assign_neq; auto.
    + destruct (try_candidates_log c recur var rest
                                   (assign (assign s var (Some w)) var None))
        as [[r3 a3] t3] eqn:T.
      injection H as -> -> <-.
      apply (Step (assign (assign s var (Some w)) var None) [] t3);
        auto using lookup_assign_eq.
      * intros v Nv. repeat apply marked_at_other; auto using marked_at_refl.
      * intros v [].
Qed.

Lemma backtrack_log_fuel_failure c d fuel :
  forall a a' t,
    backtrack_log_fuel c d fuel a = (Ret None, a', t) ->
    (forall v, marked_at a a' v)
    /\ forall v, In v (map fst t) ->
                 lookup a v = None /\ lookup a' v = Some None.
Proof.
  induction fuel as [|fuel IH]; simpl; intros a a' t H; [discriminate|].
  destruct (assignment_complete c a); [discriminate|].
  destruct (select_unassigned_variable d a) as [var| |] eqn:S; try discriminate.
  destruct (order_domain_values c d var a) as [ws| |]; try discriminate.
  apply select_Ret_unassigned in S as [_ N].
  apply try_candidates_log_failure in H as (F & E & M & L); auto.
  split.
  - intros v. destruct (Var_eq_dec v var) as [->|Nv]; auto.
    destruct ws as [|w ws].
    + rewrite E; auto using marked_at_refl.
    + right; split; auto. apply M; discriminate.
  - intros v I. destruct (L v I) as [La' [->|La]]; auto.
Qed.

(** Every variable of the trace is a key when the run ends, however it
    ends. *)
Lemma try_candidates_log_keys c recur var :
  (forall s v, In v (keys s) \/ In v (map fst (snd (recur s))) ->
               In v (keys (snd (fst (recur s))))) ->
  forall candidates s v,
    In v (keys s)
    \/ In v (map fst (snd (try_candidates_log c recur var candidates s))) ->
    In v (keys (snd (fst (try_candidates_log c recur var candidates s)))).
Proof.
  intros HR. induction candidates as [|w rest IH]; simpl; intros s v.
  - intros [K|[]]. exact K.
  - assert (In v (keys s) \/ v = var ->
            In v (keys (assign s var (Some w)))) as K1.
    { intros [K| ->]; [now apply keys_assign_incl | apply keys_assign_key]. }
    destruct (consistent c (assign s var (Some w))) as [[|]|e|].
    + specialize (HR (assign s var (Some w)) v).
      destruct (recur (assign s var (Some w))) as [[r a2] t].
      cbn [fst snd] in HR.
      assert (forall r' : result (option Assignment),
                 In v (keys s)
                         \/ In v (map fst (snd (r', a2, (var, w) :: t))) ->
                         In v (keys a2)) as Stop.
      { simpl. intros _ [K|[E|I]]; auto. }
      destruct r as [[x|]|e|]; try apply Stop.
      specialize (IH (assign a2 var None) v).
      destruct (try_candidates_log c recur var rest (assign a2 var None))
        as [[r3 a3] t3].
      simpl in *. rewrite map_app, in_app_iff.
      intros [K|[E|[I|I]]]; apply IH; auto;
        left; try (rewrite <- E; apply keys_assign_key);
        apply keys_assign_incl; auto.
    + specialize (IH (assign (assign s var (Some w)) var None) v).
      destruct (try_candidates_log c recur var rest
                                   (assign (assign s var (Some w)) var None))
        as [[r3 a3] t3].
      simpl in *. intros [K|[E|I]]; apply IH; auto;
        left; apply keys_assign_incl; auto.
    + simpl. intros [K|[E|[]]]; auto.
    + simpl. intros [K|[E|[]]]; auto.
Qed.

Lemma backtrack_log_fuel_keys c d fuel :
  forall a v,
    In v (keys a) \/ In v (map fst (snd (backtrack_log_fuel c d fuel a))) ->
    In v (keys (snd (fst (backtrack_log_fuel c d fuel a)))).
Proof.
  induction fuel as [|fuel IH]; simpl; intros a v.
  - intros [K|[]]. exact K.
  - destruct (assignment_complete c a); [intros [K|[]]; exact K|].
    destruct (select_unassigned_variable d a) as [var| |];
      try (intros [K|[]]; exact K).
    destruct (order_domain_values c d var a) as [ws| |];
      try (intros [K|[]]; exact K).
    now apply try_candidates_log_keys.
Qed.

(** C10: the search works on the caller's dict and does not restore it.
    The search with its trace is the search itself.  No key is ever removed,
    and every variable the call tried, at any depth, is a key when the call
    ends, however it ends.  When [backtrack] fails,
    every entry is as it was or is new and mapped to [None]; the variable
    the call selected, if it had a candidate, is left behind mapped to
    [None], so the dict differs from what the caller passed; the variables
    tried are exactly the keys the call added, each left mapped to [None],
    so none of them is a candidate of [select_unassigned_variable] any more,
    while [assignment_complete] does not count them as assigned.  The last
    holds of every variable left at [None]. *)
Theorem backtrack_failure_not_restored c d a :
  fst (backtrack_log c d a) = backtrack c d a
  /\ (forall v, In v (keys a) -> In v (keys (snd (backtrack c d a))))
  /\ (forall v, In v (tried c d a) -> In v (keys (snd (backtrack c d a))))
  /\ (forall a', backtrack c d a = (Ret None, a') ->
        (forall v, marked_at a a' v)
        /\ (exists var candidates,
               select_unassigned_variable d a = Ret var
               /\ order_domain_values c d var a = Ret candidates
               /\ lookup a var = None
               /\ (candidates <> [] -> lookup a' var = Some None /\ a' <> a))
        /\ (forall v, In v (tried c d a)
                      <-> lookup a v = None /\ lookup a' v = Some None)
        /\ (forall v, In v (tried c d a) ->
                      ~ In v (unassigned d a')
                      /\ select_unassigned_variable d a' <> Ret v
                      /\ (In v (variables c) ->
                          assignment_complete c a' = false)))
  /\ (forall a' v, lookup a' v = Some None ->
        ~ In v (unassigned d a')
        /\ select_unassigned_variable d a' <> Ret v
        /\ (In v (variables c) -> assignment_complete c a' = false)).
Proof.
  assert (forall a' v, lookup a' v = Some None ->
            ~ In v (unassigned d a')
            /\ select_unassigned_variable d a' <> Ret v
            /\ (In v (variables c) -> assignment_complete c a' = false))
    as Marker.
  { intros a' v L.
    assert (~ In v (unassigned d a')) as NU.
    { rewrite unassigned_In. intros [_ NK]. apply NK.
      eapply lookup_Some_key; eauto. }
    split; auto. split.
    - intros S. pose proof (select_unassigned_variable_keys d a') as K.
      rewrite S in K. tauto.
    - intros I. eapply assignment_complete_marker; eauto. }
  split; [|split; [|split; [|split]]].
  - apply backtrack_log_erase.
  - apply backtrack_fuel_keys.
  - intros v I. rewrite <- backtrack_log_erase.
    apply backtrack_log_fuel_keys. now right.
  - intros a' H.
    assert (exists t, backtrack_log c d a = (Ret None, a', t)) as [t BL].
    { pose proof (backtrack_log_erase c d a) as Er. rewrite H in Er.
      destruct (backtrack_log c d a) as [[r a''] t]. simpl in Er.
      injection Er as -> ->. now exists t. }
    pose proof (backtrack_log_fuel_frame
                  c d (S (List.length (unassigned d a))) a) as Fr.
    unfold tried. unfold backtrack_log in *. rewrite BL in *.
    cbn [fst snd] in Fr.
    apply backtrack_log_fuel_failure in BL as [M T].
    split; [exact M|]. split; [|split].
    + unfold backtrack in H. simpl in H.
      destruct (assignment_complete c a); [discriminate|].
      destruct (select_unassigned_variable d a) as [var| |] eqn:S;
        try discriminate.
      destruct (order_domain_values c d var a) as [ws| |] eqn:O;
        try discriminate.
      pose proof (select_Ret_unassigned _ _ _ S) as [_ N].
      apply try_candidates_failure in H as (_ & _ & Mv);
        [|apply backtrack_fuel_failure].
      exists var, ws. split; [reflexivity|]. split; [exact O|].
      split; [exact N|]. intros NE. split; [now apply Mv|].
      intros ->. rewrite (Mv NE) in N. discriminate.
    + intros v. split; [apply T|].
      intros [La La'].
      destruct (in_dec Var_eq_dec v (map fst t)) as [I|NI]; auto.
      rewrite (Fr v NI) in La'. congruence.
    + intros v I. apply Marker. now apply T.
  - exact Marker.
Qed.

Lemma backtrack_failure_not_restored_witness :
  let c := Examples.two_slots [] in
  let d := [(Examples.X, ["cat"]); (Examples.Y, ["dog"; "cow"])] in
  exists a',
    backtrack c d [] = (Ret None, a')
    /\ snd (backtrack_log c d [])
       = [(Examples.X, "cat"); (Examples.Y, "dog"); (Examples.Y, "cow")]
    /\ lookup a' Examples.X = Some None /\ a' <> []
    /\ lookup a' Examples.Y = Some None
    /\ ~ In Examples.Y (unassigned d a').
Proof.
  intros c d.
  exists [(Examples.X, None); (Examples.Y, None)].
  assert (backtrack c d []
          = (Ret None, [(Examples.X, None); (Examples.Y, None)]))
    as E by (vm_compute; reflexivity).
  split; [exact E|]. split; [vm_compute; reflexivity|].
  destruct (proj1 (proj2 (proj2 (proj2
              (backtrack_failure_not_restored c d [])))) _ E)
    as (_ & (var & ws & S & O & _ & M) & T & U).
  assert (In Examples.Y (tried c d [])) as I by (vm_compute; auto).
  split; [|split; [|split]].
  - vm_compute in S. injection S as <-.
    vm_compute in O. injection O as <-.
    apply M. discriminate.
  - vm_compute in S. injection S as <-.
    vm_compute in O. injection O as <-.
    apply M. discriminate.
  - now apply T.
  - now apply U.
Defined.

(** ** What [consistent] guarantees *)

Lemma all_ok_true {A : Type} (f : A -> result bool) l :
  all_ok f l = Ret true -> forall x, In x l -> f x = Ret true.
Proof.
  induction l as [|y l IH]; simpl; intros H x; [intros []|].
  destruct (f y) as [[|]| |] eqn:E; try discriminate.
  intros [<-|I]; auto.
Qed.

Lemma nodup_length_le {A : Type} (dec : forall x y : A, {x = y} + {x <> y}) l :
  List.length (nodup dec l) <= List.length l.
Proof.
  induction l as [|x l IH]; simpl; auto.
  destruct (in_dec dec x l); simpl; lia.
Qed.

Lemma nodup_length_NoDup {A : Type} (dec : forall x y : A, {x = y} + {x <> y}) l :
  List.length (nodup dec l) = List.length l -> NoDup l.
Proof.
  induction l as [|x l IH]; simpl; intros H; [constructor|].
  pose proof (nodup_length_le dec l).
  destruct (in_dec dec x l); simpl in H; [lia|].
  constructor; auto.
Qed.

Lemma NoDup_map_injective {A B : Type} (f : A -> B) l :
  NoDup (map f l) ->
  forall x y, In x l -> In y l -> f x = f y -> x = y.
Proof.
  induction l as [|z l IH]; simpl; intros N x y Hx Hy E; [tauto|].
  inversion N as [|? ? NI N']; subst.
  destruct Hx as [<-|Hx], Hy as [<-|Hy]; auto.
  - exfalso. apply NI. rewrite E. now apply in_map.
  - exfalso. apply NI. rewrite <- E. now apply in_map.
Qed.

Lemma consistent_sound c a :
  consistent c a = Ret true ->
  (forall v1 v2 w, lookup a v1 = Some (Some w) -> lookup a v2 = Some (Some w) ->
                   v1 = v2)
  /\ (forall v w, lookup a v = Some (Some w) -> String.length w = Var.length v)
  /\ (forall v u w w' i j,
         lookup a v = Some (Some w) -> In u (neighbors c v) ->
         lookup a u = Some (Some w') ->
         overlaps c (v, u) = Some (Some (i, j)) ->
         exists ch, String.get i w = Some ch /\ String.get j w' = Some ch).
Proof.
  unfold consistent.
  destruct (Nat.eqb (List.length (map snd a))
                    (List.length (nodup option_word_dec (map snd a)))) eqn:U;
    simpl; [|discriminate].
  intros H. apply Nat.eqb_eq in U. symmetry in U.
  apply nodup_length_NoDup in U.
  pose proof (all_ok_true _ _ H) as E. clear H.
  assert (forall v w, lookup a v = Some (Some w) ->
                      String.length w = Var.length v
                      /\ all_ok (check_neighbor c a v w) (neighbors c v)
                         = Ret true) as Entry.
  { intros v w L. apply lookup_In in L. specialize (E _ L).
    unfold check_entry in E; simpl in E.
    destruct (Nat.eqb (String.length w) (Var.length v)) eqn:Len;
      simpl in E; [|discriminate].
    apply Nat.eqb_eq in Len. auto. }
  split; [|split].
  - intros v1 v2 w L1 L2. apply lookup_In in L1, L2.
    pose proof (NoDup_map_injective snd a U _ _ L1 L2 eq_refl) as P.
    congruence.
  - intros v w L. now apply Entry.
  - intros v u w w' i j L Hu Lu O.
    destruct (Entry v w L) as [_ N].
    pose proof (all_ok_true _ _ N u Hu) as Ck.
    unfold check_neighbor in Ck. rewrite Lu, O in Ck.
    destruct (String.get i w) as [x|]; [|discriminate].
    destruct (String.get j w') as [y|]; [|discriminate].
    injection Ck as Ck. apply Ascii.eqb_eq in Ck. subst y. eauto.
Qed.

Lemma consistent_empty c : consistent c [] = Ret true.
Proof. reflexivity. Qed.

(** ** Backtracking: what a successful search returns *)

Lemma try_candidates_found c recur var candidates :
  (forall s x s', recur s = (Ret (Some x), s') ->
                  x = s' /\ assignment_complete c s' = true
                  /\ (s' = s \/ consistent c s' = Ret true)) ->
  forall s x a',
    try_candidates c recur var candidates s = (Ret (Some x), a') ->
    x = a' /\ assignment_complete c a' = true /\ consistent c a' = Ret true.
Proof.
  intros HR. induction candidates as [|w rest IH]; simpl; intros s x a' H;
    [discriminate|].
  destruct (consistent c (assign s var (Some w))) as [[|]|e|] eqn:C;
    try discriminate; eauto.
  destruct (recur (assign s var (Some w))) as [[[y|]|e|] a2] eqn:R;
    try discriminate; eauto.
  injection H as <- <-.
  apply HR in R as (-> & Cm & [->|Cs]); auto.
Qed.

Lemma backtrack_fuel_found c d fuel :
  forall a x a',
    backtrack_fuel c d fuel a = (Ret (Some x), a') ->
    x = a' /\ assignment_complete c a' = true
    /\ (a' = a \/ consistent c a' = Ret true).
Proof.
  induction fuel as [|fuel IH]; simpl; intros a x a' H; [discriminate|].
  destruct (assignment_complete c a) eqn:Cm.
  - injection H as <- <-. auto.
  - destruct (select_unassigned_variable d a) as [var| |]; try discriminate.
    destruct (order_domain_values c d var a) as [ws| |]; try discriminate.
    apply try_candidates_found in H as (-> & Cm' & Cs); auto.
Qed.

Lemma complete_consistent_valid c a :
  assignment_complete c a = true -> consistent c a = Ret true ->
  valid_solution c a.
Proof.
  intros Cm Cs. apply consistent_sound in Cs as (U & L & O).
  constructor; auto.
  intros v I. unfold assignment_complete in Cm.
  rewrite forallb_forall in Cm. specialize (Cm v I).
  destruct (lookup a v) as [[w|]|]; try discriminate. eauto.
Qed.

(** C4: the assignment [solve] returns, and the one [backtrack] returns
    from the empty assignment or from any assignment that is incomplete or
    consistent, is a valid solution: complete, no word on two variables,
    every word of its variable's length, and equal characters where
    neighbors have a recorded overlap. *)
Theorem returned_solution_valid c d a0 a :
  fst (solve c) = Ret (Some a)
  \/ (fst (backtrack c d a0) = Ret (Some a)
      /\ (a0 = [] \/ assignment_complete c a0 = false
          \/ consistent c a0 = Ret true)) ->
  valid_solution c a.
Proof.
  assert (forall d a0, fst (backtrack c d a0) = Ret (Some a) ->
                       a0 = [] \/ assignment_complete c a0 = false
                       \/ consistent c a0 = Ret true ->
                       valid_solution c a) as B.
  { clear. intros d a0 H Start. unfold backtrack in H.
    destruct (backtrack_fuel c d (S (List.length (unassigned d a0))) a0)
      as [r a'] eqn:E.
    simpl in H; subst r.
    apply backtrack_fuel_found in E as (-> & Cm & [->|Cs]).
    - apply complete_consistent_valid; auto.
      destruct Start as [->|[Inc|Cs]];
        [apply consistent_empty | congruence | exact Cs].
    - now apply complete_consistent_valid. }
  intros [S|[H Start]]; [|eauto].
  unfold solve in S.
  destruct (enforce_node_consistency (init_domains c)) as [[[]|e|] d1];
    try discriminate.
  destruct (ac3 c None d1) as [[b|e|] d2]; try discriminate.
  simpl in S. eapply B; eauto.
Qed.

Lemma returned_solution_valid_witness :
  valid_solution (Examples.two_slots ["cat"; "tap"])
                 [(Examples.X, Some "cat"); (Examples.Y, Some "tap")].
Proof.
  apply (returned_solution_valid (Examples.two_slots ["cat"; "tap"]) [] []).
  left. vm_compute. reflexivity.
Defined.

(** ** The loops never run out of fuel *)

Lemma any_match_fuel vx i j dy : any_match vx i j dy <> OutOfFuel.
Proof.
  induction dy as [|vy dy IH]; simpl; [discriminate|].
  destruct (String.get i vx), (String.get j vy); try discriminate.
  destruct (Ascii.eqb a a0); [discriminate | exact IH].
Qed.

Lemma values_to_remove_fuel d y i j dx :
  values_to_remove d y i j dx <> OutOfFuel.
Proof.
  induction dx as [|vx dx IH]; simpl; [discriminate|].
  unfold has_support. destruct (lookup d y) as [dy|]; [|discriminate].
  pose proof (any_match_fuel vx i j dy).
  destruct (any_match vx i j dy); try congruence.
  destruct (values_to_remove d y i j dx); congruence.
Qed.

Lemma values_to_remove_incl d y i j dx :
  forall rm, values_to_remove d y i j dx = Ret rm -> incl rm dx.
Proof.
  induction dx as [|vx dx IH]; simpl; intros rm H.
  - injection H as <-. apply incl_refl.
  - destruct (has_support d y i j vx) as [b| |]; try discriminate.
    destruct (values_to_remove d y i j dx) as [rm'| |]; try discriminate.
    injection H as <-. specialize (IH rm' eq_refl).
    destruct b.
    + now apply incl_tl.
    + apply incl_cons; [now left | now apply incl_tl].
Qed.

Lemma revise_fuel c x y d : fst (revise c x y d) <> OutOfFuel.
Proof.
  unfold revise.
  destruct (overlaps c (x, y)) as [[[i j]|]|]; try discriminate.
  destruct (lookup d x) as [dx|]; [|discriminate].
  pose proof (values_to_remove_fuel d y i j dx).
  destruct (values_to_remove d y i j dx) as [[|]| |]; simpl; congruence.
Qed.

Lemma filter_length_lt {A : Type} (f : A -> bool) l x :
  In x l -> f x = false -> List.length (filter f l) < List.length l.
Proof.
  induction l as [|y l IH]; simpl; intros I F; [tauto|].
  pose proof (filter_length_le f l).
  destruct I as [->|I].
  - rewrite F. lia.
  - specialize (IH I F). destruct (f y); simpl; lia.
Qed.

Lemma total_size_assign d x dx ws :
  lookup d x = Some dx ->
  total_size (assign d x ws) + List.length dx = total_size d + List.length ws.
Proof.
  unfold total_size.
  induction d as [|[k v] d IH]; simpl; [discriminate|].
  destruct (Var.eqb k x); simpl.
  - intros [= ->]. lia.
  - intros L. specialize (IH L). lia.
Qed.

Lemma revise_true_smaller c x y d d' :
  revise c x y d = (Ret true, d') -> total_size d' < total_size d.
Proof.
  intros H. pose proof (revise_inv c x y d) as R. rewrite H in R.
  inversion R as [r N|i j dx rm O L V NE]; subst; [congruence|].
  pose proof (total_size_assign d x dx
                (filter (fun w => negb (mem w rm)) dx) L) as T.
  destruct rm as [|w rm]; [congruence|].
  assert (List.length (filter (fun v => negb (mem v (w :: rm))) dx)
          < List.length dx); [|lia].
  apply filter_length_lt with (x := w).
  - eapply values_to_remove_incl; eauto. now left.
  - simpl. now rewrite String.eqb_refl.
Qed.

Lemma revise_false_same c x y d d' :
  revise c x y d = (Ret false, d') -> d' = d.
Proof.
  intros H. pose proof (revise_inv c x y d) as R. rewrite H in R.
  inversion R; subst; auto.
Qed.

Lemma ac3_loop_total c fuel :
  forall q d, total_size d < fuel -> fst (ac3_loop c fuel q d) <> OutOfFuel.
Proof.
  induction fuel as [|fuel IH]; intros q d T; [lia|]. simpl.
  revert d T. induction q as [|[X Y] rest IHq]; intros d T; simpl;
    [discriminate|].
  pose proof (revise_fuel c X Y d) as F.
  destruct (revise c X Y d) as [[[|]|e|] d'] eqn:R; simpl in *;
    try congruence.
  - apply revise_true_smaller in R.
    destruct (lookup d' X) as [[|]|]; simpl; try discriminate.
    apply IH. lia.
  - apply revise_false_same in R. subst d'. now apply IHq.
Qed.

(** [ac3] always returns or raises. *)
Lemma ac3_total c arcs d : fst (ac3 c arcs d) <> OutOfFuel.
Proof. apply ac3_loop_total. lia. Qed.

Lemma all_ok_fuel {A : Type} (f : A -> result bool) l :
  (forall x, f x <> OutOfFuel) -> all_ok f l <> OutOfFuel.
Proof.
  intros F. induction l as [|x l IH]; simpl; [discriminate|].
  specialize (F x). destruct (f x) as [[|]| |]; congruence.
Qed.

Lemma consistent_fuel c a : consistent c a <> OutOfFuel.
Proof.
  unfold consistent.
  destruct (negb _); [discriminate|].
  apply all_ok_fuel. intros [v [w|]]; unfold check_entry; simpl;
    [|discriminate].
  destruct (negb _); [discriminate|].
  apply all_ok_fuel. intros u. unfold check_neighbor.
  destruct (lookup a u) as [[w'|]|]; try discriminate.
  destruct (overlaps c (v, u)) as [[[i j]|]|]; try discriminate.
  destruct (String.get i w), (String.get j w'); discriminate.
Qed.

Lemma count_conflicts_over_fuel d a value ns :
  count_conflicts_over d a value ns <> OutOfFuel.
Proof.
  induction ns as [|n ns IH]; simpl; [discriminate|].
  destruct (has_key a n); auto.
  destruct (lookup d n); [|discriminate].
  destruct (count_conflicts_over d a value ns); congruence.
Qed.

Lemma with_keys_fuel {A : Type} (key : A -> result nat) l :
  (forall x, key x <> OutOfFuel) -> with_keys key l <> OutOfFuel.
Proof.
  intros K. induction l as [|x l IH]; simpl; [discriminate|].
  specialize (K x). destruct (key x); try congruence.
  destruct (with_keys key l); congruence.
Qed.

Lemma order_domain_values_fuel c d var a :
  order_domain_values c d var a <> OutOfFuel.
Proof.
  unfold order_domain_values, sorted.
  destruct (lookup d var) as [ws|]; [|discriminate].
  pose proof (with_keys_fuel (count_conflicts c d a var) ws) as W.
  destruct (with_keys (count_conflicts c d a var) ws); try discriminate.
  intros _. apply W; [|reflexivity].
  intros w. apply count_conflicts_over_fuel.
Qed.

Lemma unassigned_smaller d a a' var :
  In var (unassigned d a) ->
  In var (keys a') ->
  (forall v, In v (keys a) -> In v (keys a')) ->
  List.length (unassigned d a') < List.length (unassigned d a).
Proof.
  unfold unassigned. intros I K Sub.
  apply filter_In in I as [Kd Na].
  induction (keys d) as [|v l IH]; simpl in *; [tauto|].
  assert (has_key a v = false \/ has_key a' v = true) as M.
  { destruct (has_key a v) eqn:E; auto. right.
    apply has_key_true. apply Sub. now apply has_key_true. }
  assert (List.length (filter (fun v => negb (has_key a' v)) l)
          <= List.length (filter (fun v => negb (has_key a v)) l)) as Le.
  { clear - Sub. induction l as [|u l IH]; simpl; auto.
    destruct (has_key a u) eqn:E; simpl.
    - apply has_key_true in E. apply Sub in E. apply has_key_true in E.
      now rewrite E.
    - destruct (has_key a' u); simpl; lia. }
  destruct Kd as [->|Kd].
  - apply has_key_true in K. rewrite K. simpl in *. rewrite Na. simpl. lia.
  - specialize (IH Kd).
    destruct M as [M|M]; rewrite M; simpl; [|destruct (has_key a v); simpl; lia].
    destruct (has_key a' v); simpl; lia.
Qed.

Lemma try_candidates_total c recur var (Inv : Assignment -> Prop) candidates :
  (forall s w, Inv s -> fst (recur (assign s var (Some w))) <> OutOfFuel) ->
  (forall s w, Inv s ->
               Inv (assign (snd (recur (assign s var (Some w)))) var None)) ->
  (forall s w, Inv s -> Inv (assign (assign s var (Some w)) var None)) ->
  forall s, Inv s ->
            fst (try_candidates c recur var candidates s) <> OutOfFuel.
Proof.
  intros H1 H2 H3.
  induction candidates as [|w rest IH]; simpl; intros s I; [discriminate|].
  pose proof (consistent_fuel c (assign s var (Some w))) as F.
  destruct (consistent c (assign s var (Some w))) as [[|]|e|]; simpl;
    try congruence.
  - specialize (H1 s w I). specialize (H2 s w I).
    destruct (recur (assign s var (Some w))) as [[[x|]|e|] a2];
      simpl in *; try congruence.
    now apply IH.
  - apply IH. now apply H3.
Qed.

Lemma backtrack_fuel_total c d fuel :
  forall a, List.length (unassigned d a) < fuel ->
            fst (backtrack_fuel c d fuel a) <> OutOfFuel.
Proof.
  induction fuel as [|fuel IH]; intros a T; [lia|]. simpl.
  destruct (assignment_complete c a); [discriminate|].
  pose proof (select_unassigned_variable_keys d a) as S.
  destruct (select_unassigned_variable d a) as [var|e|]; simpl;
    [|discriminate|tauto].
  destruct S as [U _].
  pose proof (order_domain_values_fuel c d var a) as O.
  destruct (order_domain_values c d var a) as [ws|e|]; simpl; try congruence.
  apply try_candidates_total
    with (Inv := fun s => forall v, In v (keys a) -> In v (keys s)); auto.
  - intros s w Sub. apply IH.
    assert (List.length (unassigned d (assign s var (Some w)))
            < List.length (unassigned d a)); [|lia].
    apply unassigned_smaller with (var := var); auto.
    + apply keys_assign_key.
    + intros v K. apply keys_assign_incl; auto.
  - intros s w Sub v K. apply keys_assign_incl.
    apply backtrack_fuel_keys. apply keys_assign_incl; auto.
  - intros s w Sub v K. repeat apply keys_assign_incl; auto.
Qed.

(** [backtrack] always returns or raises. *)
Lemma backtrack_total c d a : fst (backtrack c d a) <> OutOfFuel.
Proof. apply backtrack_fuel_total. lia. Qed.

Lemma enforce_total d : fst (enforce_node_consistency d) <> OutOfFuel.
Proof.
  destruct (enforce_node_consistency d) as [r d'] eqn:E. simpl.
  intros ->. now apply enforce_no_fuel in E.
Qed.

(** [solve] always returns or raises. *)
Lemma solve_total c : fst (solve c) <> OutOfFuel.
Proof.
  unfold solve.
  pose proof (enforce_total (init_domains c)) as E.
  destruct (enforce_node_consistency (init_domains c)) as [[[]|e|] d1];
    simpl in *; try congruence.
  pose proof (ac3_total c None d1) as A.
  destruct (ac3 c None d1) as [[b|e|] d2]; simpl in *; try congruence.
  apply backtrack_total.
Qed.

(** ** Solve after a failed AC-3 *)

Lemma run_queue_false c continue :
  (forall q d d', continue q d = (Ret false, d') ->
                  exists X, lookup d' X = Some []) ->
  forall q d d', run_queue c continue q d = (Ret false, d') ->
                 exists X, lookup d' X = Some [].
Proof.
  intros HC q. induction q as [|[X Y] rest IH]; simpl; intros d d' H;
    [discriminate|].
  destruct (revise c X Y d) as [[[|]|e|] d1]; try discriminate; eauto.
  destruct (lookup d1 X) as [[|w ws]|] eqn:L; try discriminate; eauto.
  injection H as <-. eauto.
Qed.

Lemma ac3_loop_false c fuel :
  forall q d d', ac3_loop c fuel q d = (Ret false, d') ->
                 exists X, lookup d' X = Some [].
Proof.
  induction fuel as [|fuel IH]; simpl; intros q d d' H; [discriminate|].
  eapply run_queue_false; eauto.
Qed.

Lemma assignment_complete_empty c :
  variables c <> [] -> assignment_complete c [] = false.
Proof. unfold assignment_complete. destruct (variables c); [congruence|auto]. Qed.

Lemma unassigned_empty d : unassigned d [] = keys d.
Proof.
  unfold unassigned. apply forallb_filter_id.
  apply forallb_forall. reflexivity.
Qed.

(** With an empty domain in the store, the search from the empty assignment
    picks a variable without candidates and fails at once. *)
Lemma backtrack_empty_domain c d X :
  variables c <> [] -> lookup d X = Some [] ->
  backtrack c d [] = (Ret None, []).
Proof.
  intros NV L. unfold backtrack. simpl.
  rewrite assignment_complete_empty by auto.
  pose proof (select_unassigned_variable_keys d []) as S.
  assert (In X (unassigned d [])) as IX.
  { rewrite unassigned_empty. eapply lookup_Some_key; eauto. }
  destruct (select_unassigned_variable d []) as [v|e|].
  - destruct S as [Iv Min]. destruct (Min X IX) as [Le _].
    unfold domain at 2 in Le. rewrite L in Le. simpl in Le.
    rewrite unassigned_empty in Iv. apply key_lookup in Iv as [ws Lv].
    unfold order_domain_values. rewrite Lv.
    unfold domain in Le. rewrite Lv in Le.
    destruct ws; [reflexivity | simpl in Le; lia].
  - destruct S as [_ E]. now rewrite E in IX.
  - tauto.
Qed.

(** C3, as amended: when AC-3 over all neighbor arcs reports the puzzle
    unsolvable, [solve] returns "no solution", and it does so through the
    search: the result of [ac3] is not looked at, [backtrack] runs on the
    empty assignment and fails without trying a candidate. *)
Theorem solve_after_ac3_failure c d1 d2 :
  enforce_node_consistency (init_domains c) = (Ret tt, d1) ->
  ac3 c None d1 = (Ret false, d2) ->
  solve c = (Ret None, [NodeConsistency; ArcConsistency; Search])
  /\ backtrack c d2 [] = (Ret None, []).
Proof.
  intros E A.
  assert (backtrack c d2 [] = (Ret None, [])) as B.
  { pose proof (ac3_shrinks c None d1) as [K _]. rewrite A in K; simpl in K.
    apply enforce_ret in E as [K1 _]. rewrite keys_init_domains in K1.
    apply ac3_loop_false in A as [X L].
    apply backtrack_empty_domain with (X := X); auto.
    apply lookup_Some_key in L. rewrite K, K1 in L.
    intros N. now rewrite N in L. }
  split; auto.
  unfold solve. rewrite E, A, B. reflexivity.
Qed.

Lemma solve_after_ac3_failure_witness :
  solve (Examples.two_slots ["abc"; "def"])
  = (Ret None, [NodeConsistency; ArcConsistency; Search]).
Proof.
  eapply (proj1 (solve_after_ac3_failure (Examples.two_slots ["abc"; "def"])
                   _ _ eq_refl eq_refl)).
Defined.

(** C3, as written, fails: on two crossing slots with the words abc and
    def, AC-3 empties a domain and reports failure, and the search is among
    the calls [solve] makes. *)
Lemma solve_does_not_short_circuit :
  let c := Examples.two_slots ["abc"; "def"] in
  fst (enforce_node_consistency (init_domains c)) = Ret tt
  /\ fst (ac3 c None (snd (enforce_node_consistency (init_domains c))))
     = Ret false
  /\ fst (solve c) = Ret None
  /\ In Search (snd (solve c)).
Proof. repeat split. vm_compute. auto. Qed.

(** ** AC-3 leaves the arcs consistent *)

Lemma mem_In w l : mem w l = true <-> In w l.
Proof.
  unfold mem. rewrite existsb_exists. split.
  - intros (x & I & E). apply String.eqb_eq in E. now subst.
  - intros I. exists w. split; auto. apply String.eqb_refl.
Qed.

Lemma domain_assign d x ws v :
  domain (assign d x ws) v = if Var.eqb x v then ws else domain d v.
Proof. unfold domain. rewrite lookup_assign. now destruct (Var.eqb x v). Qed.

Lemma any_match_spec vx i j dy :
  forall b, any_match vx i j dy = Ret b ->
    (b = true ->
     exists vy ch, In vy dy
                   /\ String.get i vx = Some ch /\ String.get j vy = Some ch)
    /\ (forall vy ch, In vy dy -> String.get i vx = Some ch ->
                      String.get j vy = Some ch -> b = true).
Proof.
  induction dy as [|vy0 dy IH]; simpl; intros b H.
  - injection H as <-. split; [discriminate | intros ? ? []].
  - destruct (String.get i vx) as [x|] eqn:Gx; [|discriminate].
    destruct (String.get j vy0) as [y|] eqn:Gy; [|discriminate].
    destruct (Ascii.eqb x y) eqn:E.
    + injection H as <-. apply Ascii.eqb_eq in E. subst y.
      split; auto. intros _. exists vy0, x. auto.
    + destruct (IH b H) as [T F]. split.
      * intros Hb. destruct (T Hb) as (vy & ch & I & G1 & G2).
        exists vy, ch. auto.
      * intros vy ch [<-|I] G1 G2; [|eauto].
        rewrite Gy in G2. injection G1 as <-. injection G2 as <-.
        now rewrite Ascii.eqb_refl in E.
Qed.

Lemma has_support_true d y i j vx :
  has_support d y i j vx = Ret true ->
  exists vy ch, In vy (domain d y)
                /\ String.get i vx = Some ch /\ String.get j vy = Some ch.
Proof.
  unfold has_support, domain. destruct (lookup d y) as [dy|]; [|discriminate].
  intros H. now apply (any_match_spec vx i j dy true H).
Qed.

Lemma has_support_false d y i j vx vy ch :
  has_support d y i j vx = Ret false ->
  In vy (domain d y) -> String.get i vx = Some ch ->
  String.get j vy = Some ch -> False.
Proof.
  unfold has_support, domain. destruct (lookup d y) as [dy|]; [|discriminate].
  intros H I G1 G2.
  pose proof (proj2 (any_match_spec vx i j dy false H) vy ch I G1 G2).
  discriminate.
Qed.

Lemma values_to_remove_spec d y i j dx :
  forall rm, values_to_remove d y i j dx = Ret rm ->
    (forall w, In w rm -> has_support d y i j w = Ret false)
    /\ (forall vx, In vx dx -> has_support d y i j vx = Ret true \/ In vx rm).
Proof.
  induction dx as [|vx0 dx IH]; simpl; intros rm H.
  - injection H as <-. split; intros ? [].
  - destruct (has_support d y i j vx0) as [b| |] eqn:S; try discriminate.
    destruct (values_to_remove d y i j dx) as [rm'| |]; try discriminate.
    injection H as <-. destruct (IH rm' eq_refl) as [R K].
    destruct b.
    + split; auto. intros vx [<-|I]; auto.
    + split.
      * intros w [<-|I]; auto.
      * intros vx [<-|I]; [right; now left|].
        destruct (K vx I); auto. right; now right.
Qed.

(** After [revise x y] returned, the arc from [x] to [y] is consistent. *)
Lemma revise_arc_ok c x y d b d' :
  WellFormed c -> revise c x y d = (Ret b, d') -> arc_ok c d' x y.
Proof.
  intros WF H. pose proof (revise_inv c x y d) as R. rewrite H in R.
  inversion R as [r N|i j dx rm O L V NE]; subst.
  - (* nothing to remove *)
    unfold revise in H. intros i j vx O I. rewrite O in H.
    unfold domain in I. destruct (lookup d' x) as [dx|]; [|destruct I].
    destruct (values_to_remove d' y i j dx) as [[|w rm]| |] eqn:V;
      try discriminate.
    + destruct (values_to_remove_spec d' y i j dx [] V) as [_ K].
      destruct (K vx I) as [S|[]]. now apply has_support_true.
    + injection H as H _. congruence.
  - intros i' j' vx O' I. rewrite O in O'. injection O' as <- <-.
    rewrite domain_assign, Var_eqb_refl in I.
    apply filter_In in I as [I NR].
    destruct (values_to_remove_spec d y i j dx rm V) as [_ K].
    destruct (K vx I) as [S|M].
    2:{ apply mem_In in M. rewrite M in NR. discriminate. }
    apply has_support_true in S as (vy & ch & Iy & G1 & G2).
    var_eq x y.
    + pose proof (wf_overlaps_sym WF _ _ O) as O2.
      rewrite O in O2. injection O2 as <-.
      exists vx, ch. split; auto.
      rewrite domain_assign, Var_eqb_refl. apply filter_In; auto.
    + exists vy, ch. split; auto.
      rewrite domain_assign. apply Var_eqb_neq in E. now rewrite E.
Qed.

(** The arcs that stay consistent, or are queued again, when [revise X0 Y0]
    removed words. *)
Lemma pending_after_revision c X0 Y0 rest d d' :
  WellFormed c ->
  revise c X0 Y0 d = (Ret true, d') ->
  pending c ((X0, Y0) :: rest) d ->
  pending c (rest ++ requeue c X0 Y0) d'.
Proof.
  intros WF H P X Y VX NY.
  pose proof (revise_arc_ok c X0 Y0 d true d' WF H) as Done.
  pose proof (revise_inv c X0 Y0 d) as R. rewrite H in R.
  inversion R as [r N|i j dx rm O L V NE]; subst; [congruence|].
  destruct (values_to_remove_spec d Y0 i j dx rm V) as [Rm _].
  assert (forall v w, In w (domain
                              (assign d X0 (filter (fun w => negb (mem w rm)) dx))
                              v) -> In w (domain d v)) as Sub.
  { intros v w. rewrite domain_assign. var_eq X0 v; auto.
    intros I. apply filter_In in I as [I _]. unfold domain. now rewrite L. }
  destruct (P X Y VX NY) as [[Q|Q]|Ok].
  - injection Q as <- <-. now right.
  - left. apply in_or_app. now left.
  - var_eq Y X0.
    + (* the domain of the target shrank *)
      var_eq X Y0.
      * right. intros i' j' vy O' I.
        pose proof (wf_overlaps_sym WF _ _ O) as O2.
        rewrite O2 in O'. injection O' as <- <-.
        destruct (Ok j i vy O2 (Sub _ _ I)) as (vx & ch & Ix & G1 & G2).
        exists vx, ch. split; auto.
        rewrite domain_assign, Var_eqb_refl. apply filter_In. split.
        -- unfold domain in Ix. now rewrite L in Ix.
        -- apply negb_true_iff. destruct (mem vx rm) eqn:M; auto.
           apply mem_In in M. exfalso.
           eapply has_support_false; eauto.
      * left. apply in_or_app. right. unfold requeue.
        apply in_map_iff. exists X. split; auto.
        apply filter_In. split.
        -- now apply (wf_neighbors_sym WF).
        -- apply negb_true_iff. now apply Var_eqb_neq.
    + (* the domain of the target is as it was *)
      right. intros i' j' vx O' I.
      destruct (Ok i' j' vx O' (Sub _ _ I)) as (vy & ch & Iy & G).
      exists vy, ch. split; auto.
      rewrite domain_assign. assert (Var.eqb X0 Y = false) as ->; auto.
      apply Var_eqb_neq. congruence.
Qed.

Lemma ac3_loop_sound c :
  WellFormed c ->
  forall fuel q d d',
    pending c q d -> ac3_loop c fuel q d = (Ret true, d') ->
    arc_consistent c d'.
Proof.
  intros WF. induction fuel as [|fuel IH]; simpl; intros q d d' P H;
    [discriminate|].
  revert d P H. induction q as [|[X0 Y0] rest IHq]; simpl; intros d P H.
  - injection H as <-. intros X Y VX NY.
    destruct (P X Y VX NY) as [[]|]; auto.
  - destruct (revise c X0 Y0 d) as [[[|]|e|] d1] eqn:R; try discriminate.
    + destruct (lookup d1 X0) as [[|w ws]|]; try discriminate.
      eapply IH; [|exact H]. eapply pending_after_revision; eauto.
    + pose proof (revise_arc_ok c X0 Y0 d false d1 WF R) as Done.
      apply revise_false_same in R. subst d1.
      apply (IHq d); [|exact H].
      intros X Y VX NY. destruct (P X Y VX NY) as [[Q|Q]|Ok]; auto.
      injection Q as <- <-. now right.
Qed.

Lemma get_arcs_all c X Y :
  In X (variables c) -> In Y (neighbors c X) -> In (X, Y) (get_arcs c).
Proof.
  intros VX NY. unfold get_arcs. apply in_flat_map. exists X. split; auto.
  now apply in_map.
Qed.

(** C5: on a puzzle whose lookups are symmetric, when [ac3] seeded with all
    neighbor arcs returns [True], every word left in the domain of a
    variable has, for each neighbor with a recorded overlap, a word in the
    neighbor's domain with the same character at the overlap. *)
Theorem ac3_sound c d d' :
  WellFormed c ->
  ac3 c None d = (Ret true, d') ->
  arc_consistent c d'.
Proof.
  intros WF H. unfold ac3 in H.
  eapply ac3_loop_sound; eauto.
  intros X Y VX NY. left. now apply get_arcs_all.
Qed.

Lemma two_slots_WellFormed ws : WellFormed (Examples.two_slots ws).
Proof.
  constructor; simpl.
  - intros x y. unfold Examples.neighbors2.
    destruct (Var.eqb x Examples.X) eqn:EX.
    + apply Var_eqb_eq in EX. subst x. intros [<-|[]]. simpl. auto.
    + destruct (Var.eqb x Examples.Y) eqn:EY; [|intros []].
      apply Var_eqb_eq in EY. subst x. intros [<-|[]]. simpl. auto.
  - intros x y i j. unfold Examples.overlaps2.
    destruct (Var.eqb x Examples.X) eqn:EX, (Var.eqb y Examples.Y) eqn:EY;
      simpl.
    + apply Var_eqb_eq in EX, EY. subst. intros [= <- <-]. reflexivity.
    + destruct (Var.eqb x Examples.Y) eqn:EX', (Var.eqb y Examples.X) eqn:EY';
        simpl; try discriminate.
      apply Var_eqb_eq in EX, EX'. subst x. discriminate.
    + destruct (Var.eqb x Examples.Y) eqn:EX', (Var.eqb y Examples.X) eqn:EY';
        simpl; try discriminate.
      apply Var_eqb_eq in EY, EY'. subst y. discriminate.
    + destruct (Var.eqb x Examples.Y) eqn:EX', (Var.eqb y Examples.X) eqn:EY';
        simpl; try discriminate.
      apply Var_eqb_eq in EX', EY'. subst. intros [= <- <-]. reflexivity.
Qed.

Lemma ac3_sound_witness :
  arc_consistent (Examples.two_slots ["cat"; "tap"])
                 [(Examples.X, ["cat"]); (Examples.Y, ["tap"])].
Proof.
  apply (ac3_sound (Examples.two_slots ["cat"; "tap"])
                   [(Examples.X, ["cat"; "tap"]); (Examples.Y, ["cat"; "tap"])]).
  - apply two_slots_WellFormed.
  - vm_compute. reflexivity.
Defined.

(** ** The failing search does not depend on iteration order *)

Lemma insert_everywhere_In {A : Type} (x : A) l1 l2 :
  In (l1 ++ x :: l2) (insert_everywhere x (l1 ++ l2)).
Proof.
  induction l1 as [|y l1 IH]; simpl.
  - destruct l2; simpl; auto.
  - right. now apply in_map.
Qed.

Lemma orderings_complete {A : Type} (l0 : list A) :
  forall l, Permutation l0 l -> In l (orderings l0).
Proof.
  induction l0 as [|x l0 IH]; simpl; intros l P.
  - apply Permutation_nil in P. subst. now left.
  - assert (In x l) as I by (eapply Permutation_in; eauto; now left).
    apply in_split in I as (l1 & l2 & ->).
    apply Permutation_cons_app_inv in P.
    apply in_flat_map. exists (l1 ++ l2). split; auto.
    apply insert_everywhere_In.
Qed.

Lemma three_slots_all_orders_hold : three_slots_all_orders = true.
Proof. vm_compute. reflexivity. Qed.

(** The failure of C1 under every iteration order of the sets involved: for
    any order of the variables, of the neighbors of [X] and of the words in
    each domain, the search on the three-slot puzzle raises the [ValueError]
    of [min], although X=cde, Y=ehi, Z=cfg solves the puzzle. *)
Lemma backtrack_misses_solution_any_order vars nX dX dY dZ :
  Permutation [Examples.X; Examples.Y; Examples.Z] vars ->
  Permutation [Examples.Y; Examples.Z] nX ->
  Permutation ["abc"; "cde"] dX ->
  Permutation ["cde"; "cfg"; "ehi"] dY ->
  Permutation ["abc"; "cde"; "cfg"] dZ ->
  fst (backtrack (three_slots_in_order vars nX)
                 (three_slots_store vars dX dY dZ) [])
  = Raise EmptyMin.
Proof.
  intros Pv Pn PX PY PZ.
  apply orderings_complete in Pv, Pn, PX, PY, PZ.
  pose proof three_slots_all_orders_hold as H.
  unfold three_slots_all_orders in H.
  rewrite forallb_forall in H. specialize (H _ Pv).
  rewrite forallb_forall in H. specialize (H _ Pn).
  rewrite forallb_forall in H. specialize (H _ PX).
  rewrite forallb_forall in H. specialize (H _ PY).
  rewrite forallb_forall in H. specialize (H _ PZ).
  destruct (fst (backtrack (three_slots_in_order vars nX)
                           (three_slots_store vars dX dY dZ) []))
    as [x|[]|]; simpl in H; congruence.
Qed.

(** * Further properties *)

(** ** Node consistency is idempotent *)

Lemma assign_same {V : Type} (m : dict V) k v :
  lookup m k = Some v -> assign m k v = m.
Proof.
  induction m as [|[k' v'] m IH]; simpl; [discriminate|].
  destruct (Var.eqb k' k).
  - now intros [= ->].
  - intros L. now rewrite IH.
Qed.

Lemma enforce_loop_fixed todo d :
  node_consistent d ->
  (forall v, In v todo -> In v (keys d)) ->
  enforce_loop todo d = (Ret tt, d).
Proof.
  intros NC. induction todo as [|var rest IH]; simpl; intros K; auto.
  destruct (key_lookup d var) as [ws L]; auto.
  rewrite L. destruct (NC var ws L) as [F N]. rewrite F.
  rewrite (assign_same d var ws L).
  destruct ws; [congruence | auto].
Qed.

Lemma enforce_ret_node_consistent d d' :
  enforce_node_consistency d = (Ret tt, d') -> node_consistent d'.
Proof.
  intros H. apply enforce_ret in H as [K H]. intros v ws' L'.
  assert (In v (keys d)) as Kv.
  { rewrite <- K. eapply lookup_Some_key; eauto. }
  apply key_lookup in Kv as [ws L].
  destruct (H v ws L) as [E N]. rewrite L' in E. injection E as ->.
  split; auto. apply filter_fits_idem.
Qed.

(** Node consistency is idempotent: on the store a successful run leaves,
    a second run succeeds and changes nothing. *)
Theorem enforce_node_consistency_idempotent d d' :
  enforce_node_consistency d = (Ret tt, d') ->
  enforce_node_consistency d' = (Ret tt, d').
Proof.
  intros H. apply enforce_loop_fixed; auto.
  eapply enforce_ret_node_consistent; eauto.
Qed.

Lemma enforce_node_consistency_idempotent_witness :
  enforce_node_consistency
    [(Examples.X, ["cat"; "tap"]); (Examples.W, ["cats"])]
  = (Ret tt, [(Examples.X, ["cat"; "tap"]); (Examples.W, ["cats"])]).
Proof.
  apply (enforce_node_consistency_idempotent
           [(Examples.X, ["cat"; "door"; "tap"]); (Examples.W, ["cats"; "dog"])]).
  reflexivity.
Defined.

(** ** What [revise] keeps *)

Lemma any_match_supported vx i j dy b :
  any_match vx i j dy = Ret b -> b = supported i j dy vx.
Proof.
  induction dy as [|vy dy IH]; simpl.
  - now intros [= <-].
  - destruct (String.get i vx), (String.get j vy); try discriminate.
    destruct (Ascii.eqb a a0); simpl; auto. now intros [= <-].
Qed.

Lemma values_to_remove_unsupported d y i j dx rm :
  values_to_remove d y i j dx = Ret rm ->
  rm = filter (fun vx => negb (supported i j (domain d y) vx)) dx.
Proof.
  revert rm. induction dx as [|vx dx IH]; simpl; intros rm H.
  - now injection H as <-.
  - unfold has_support, domain in *.
    destruct (lookup d y) as [dy|]; [|discriminate].
    destruct (any_match vx i j dy) as [b| |] eqn:M; try discriminate.
    apply any_match_supported in M. subst b.
    destruct (values_to_remove d y i j dx) as [rm'| |]; try discriminate.
    injection H as <-. rewrite (IH rm' eq_refl).
    now destruct (supported i j dy vx).
Qed.

Lemma filter_complement {A : Type} (f : A -> bool) l :
  filter (fun x => negb (f x)) l = [] -> filter f l = l.
Proof.
  induction l as [|x l IH]; simpl; auto.
  destruct (f x); simpl; [|discriminate]. intros H. now rewrite IH.
Qed.

(** What [revise] keeps: when [revise x y] returns on a recorded overlap
    [(i, j)], the domain of [x] holds exactly its former words that have a
    partner in the domain [y] had, in their former order, and the answer is
    [True] exactly when a word was removed. *)
Theorem revise_keeps_supported c x y d b d' i j dx :
  revise c x y d = (Ret b, d') ->
  overlaps c (x, y) = Some (Some (i, j)) ->
  lookup d x = Some dx ->
  lookup d' x = Some (filter (supported i j (domain d y)) dx)
  /\ (b = true <-> exists vx, In vx dx /\ supported i j (domain d y) vx = false).
Proof.
  intros H O L. unfold revise in H. rewrite O, L in H.
  destruct (values_to_remove d y i j dx) as [rm| |] eqn:V; try discriminate.
  pose proof (values_to_remove_unsupported d y i j dx rm V) as E.
  destruct rm as [|w rm].
  - injection H as <- <-. split.
    + rewrite L. f_equal. symmetry. now apply filter_complement.
    + split; [discriminate|]. intros (vx & I & S).
      assert (In vx (filter (fun vx => negb (supported i j (domain d y) vx)) dx))
        as I' by (apply filter_In; split; auto; now rewrite S).
      rewrite <- E in I'. destruct I'.
  - injection H as <- <-. split.
    + rewrite lookup_assign_eq. f_equal. apply filter_ext_in.
      intros vx I.
      change (negb (mem vx (w :: rm)) = supported i j (domain d y) vx).
      destruct (mem vx (w :: rm)) eqn:M.
      * apply mem_In in M. rewrite E in M. apply filter_In in M as [_ M].
        apply negb_true_iff in M. now rewrite M.
      * destruct (supported i j (domain d y) vx) eqn:S; auto.
        assert (In vx (w :: rm)) as I'.
        { rewrite E. apply filter_In. split; auto. now rewrite S. }
        apply mem_In in I'. congruence.
    + split; auto. intros _. exists w.
      assert (In w (w :: rm)) as I by now left.
      rewrite E in I. apply filter_In in I as [I S].
      apply negb_true_iff in S. auto.
Qed.

Lemma revise_keeps_supported_witness :
  lookup (snd (revise (Examples.two_slots [])
                      Examples.X Examples.Y
                      [(Examples.X, ["cat"; "tap"]);
                       (Examples.Y, ["cat"; "tap"])]))
         Examples.X
  = Some ["cat"].
Proof.
  eapply (proj1 (revise_keeps_supported
                   (Examples.two_slots []) Examples.X Examples.Y
                   [(Examples.X, ["cat"; "tap"]); (Examples.Y, ["cat"; "tap"])]
                   true _ 2 0 ["cat"; "tap"] eq_refl eq_refl eq_refl)).
Defined.

(** ** The AC-3 loop ends, and what its answer says *)

Lemma run_queue_ext c k1 k2 d :
  (forall q' d', total_size d' < total_size d -> k1 q' d' = k2 q' d') ->
  forall q, run_queue c k1 q d = run_queue c k2 q d.
Proof.
  intros K q. induction q as [|[X Y] rest IH]; simpl; auto.
  destruct (revise c X Y d) as [[[|]|e|] d1] eqn:R; auto.
  - apply revise_true_smaller in R.
    destruct (lookup d1 X) as [[|w ws]|]; auto.
  - apply revise_false_same in R. subst d1. exact IH.
Qed.

Lemma ac3_loop_fuel_irrelevant c :
  forall n m q d, total_size d < n -> total_size d < m ->
                  ac3_loop c n q d = ac3_loop c m q d.
Proof.
  induction n as [|n IH]; intros m q d Hn Hm; [lia|].
  destruct m as [|m]; [lia|]. simpl.
  apply run_queue_ext. intros q' d' T. apply IH; lia.
Qed.

(** The AC-3 loop ends: a revision that queues arcs again removes a word,
    so the loop is through after at most as many of them as the store has
    words; with that much fuel or more the loop gives the answer of [ac3],
    which returns or raises. *)
Theorem ac3_terminates c queue d fuel :
  total_size d < fuel ->
  ac3_loop c fuel queue d = ac3 c (Some queue) d
  /\ fst (ac3 c (Some queue) d) <> OutOfFuel.
Proof.
  intros T. split.
  - unfold ac3. apply ac3_loop_fuel_irrelevant; lia.
  - apply ac3_total.
Qed.

Lemma ac3_terminates_witness :
  ac3_loop (Examples.two_slots []) 10
           [(Examples.X, Examples.Y); (Examples.Y, Examples.X)]
           [(Examples.X, ["cat"; "tap"]); (Examples.Y, ["cat"; "tap"])]
  = ac3 (Examples.two_slots [])
        (Some [(Examples.X, Examples.Y); (Examples.Y, Examples.X)])
        [(Examples.X, ["cat"; "tap"]); (Examples.Y, ["cat"; "tap"])].
Proof.
  apply (ac3_terminates (Examples.two_slots [])).
  unfold total_size. simpl. lia.
Defined.

Lemma run_queue_true_no_empty c continue :
  (forall q d d', no_empty_domain d -> continue q d = (Ret true, d') ->
                  no_empty_domain d') ->
  forall q d d', no_empty_domain d -> run_queue c continue q d = (Ret true, d') ->
                 no_empty_domain d'.
Proof.
  intros HC q. induction q as [|[X Y] rest IH]; simpl; intros d d' N H.
  - now injection H as <-.
  - destruct (revise c X Y d) as [[[|]|e|] d1] eqn:R; try discriminate.
    + destruct (lookup d1 X) as [[|w ws]|] eqn:L; try discriminate.
      eapply HC; [|exact H].
      intros v ws' Lv. destruct (Var_eq_dec v X) as [->|Nv].
      * rewrite L in Lv. injection Lv as <-. discriminate.
      * pose proof (revise_frame c X Y d v Nv) as F. rewrite R in F.
        simpl in F. rewrite F in Lv. eapply N; eauto.
    + apply revise_false_same in R. subst d1. eauto.
Qed.

Lemma ac3_loop_true_no_empty c fuel :
  forall q d d', no_empty_domain d -> ac3_loop c fuel q d = (Ret true, d') ->
                 no_empty_domain d'.
Proof.
  induction fuel as [|fuel IH]; simpl; intros q d d' N H; [discriminate|].
  eapply run_queue_true_no_empty; eauto.
Qed.

(** The answer of [ac3]: started on a store without an empty domain, [ac3]
    returns [True] exactly when it leaves no domain empty, and [False]
    exactly when it leaves one empty. *)
Theorem ac3_answer c arcs d b d' :
  no_empty_domain d ->
  ac3 c arcs d = (Ret b, d') ->
  (b = true <-> no_empty_domain d')
  /\ (b = false <-> exists X, lookup d' X = Some []).
Proof.
  intros N H.
  assert (b = true -> no_empty_domain d') as T.
  { intros ->. eapply ac3_loop_true_no_empty; eauto. }
  assert (b = false -> exists X, lookup d' X = Some []) as F.
  { intros ->. eapply ac3_loop_false; eauto. }
  split; split; auto.
  - intros NE. destruct b; auto. destruct (F eq_refl) as [X L].
    now apply NE in L.
  - intros [X L]. destruct b; auto. now apply (T eq_refl) in L.
Qed.

Lemma ac3_answer_witness :
  no_empty_domain [(Examples.X, ["cat"]); (Examples.Y, ["tap"])].
Proof.
  apply (ac3_answer (Examples.two_slots []) None
           [(Examples.X, ["cat"; "tap"]); (Examples.Y, ["cat"; "tap"])]
           true).
  - intros v ws. simpl.
    destruct (Var.eqb Examples.X v); [intros [= <-]; discriminate|].
    destruct (Var.eqb Examples.Y v); [intros [= <-]; discriminate|].
    discriminate.
  - vm_compute. reflexivity.
  - reflexivity.
Defined.

(** ** The search ends *)

Lemma try_candidates_ext c r1 r2 var (Inv : Assignment -> Prop) candidates :
  (forall s w, Inv s -> r1 (assign s var (Some w)) = r2 (assign s var (Some w))) ->
  (forall s w, Inv s ->
               Inv (assign (snd (r1 (assign s var (Some w)))) var None)) ->
  (forall s w, Inv s -> Inv (assign (assign s var (Some w)) var None)) ->
  forall s, Inv s ->
            try_candidates c r1 var candidates s
            = try_candidates c r2 var candidates s.
Proof.
  intros H1 H2 H3.
  induction candidates as [|w rest IH]; simpl; intros s I; auto.
  destruct (consistent c (assign s var (Some w))) as [[|]|e|]; auto.
  rewrite <- (H1 s w I). specialize (H2 s w I).
  destruct (r1 (assign s var (Some w))) as [[[x|]|e|] a2]; simpl in *; auto.
Qed.

Lemma backtrack_fuel_irrelevant c d :
  forall n m a, List.length (unassigned d a) < n ->
                List.length (unassigned d a) < m ->
                backtrack_fuel c d n a = backtrack_fuel c d m a.
Proof.
  induction n as [|n IH]; intros m a Hn Hm; [lia|].
  destruct m as [|m]; [lia|]. simpl.
  destruct (assignment_complete c a); auto.
  pose proof (select_unassigned_variable_keys d a) as S.
  destruct (select_unassigned_variable d a) as [var|e|]; auto.
  destruct S as [U _].
  destruct (order_domain_values c d var a) as [ws|e|]; auto.
  apply try_candidates_ext
    with (Inv := fun s => forall v, In v (keys a) -> In v (keys s)); auto.
  - intros s w Sub.
    assert (List.length (unassigned d (assign s var (Some w)))
            < List.length (unassigned d a)) as Lt.
    { apply unassigned_smaller with (var := var); auto.
      + apply keys_assign_key.
      + intros v K. apply keys_assign_incl; auto. }
    apply IH; lia.
  - intros s w Sub v K. apply keys_assign_incl.
    apply backtrack_fuel_keys. apply keys_assign_incl; auto.
  - intros s w Sub v K. repeat apply keys_assign_incl; auto.
Qed.

(** The search ends: every nested call works on an assignment with one more
    key among the variables of the store, so the nesting is no deeper than
    the number of variables the assignment lacks; with that much fuel or
    more the recursion gives the answer of [backtrack], which returns or
    raises. *)
Theorem backtrack_terminates c d a fuel :
  List.length (unassigned d a) < fuel ->
  backtrack_fuel c d fuel a = backtrack c d a
  /\ fst (backtrack c d a) <> OutOfFuel.
Proof.
  intros T. split.
  - unfold backtrack. apply backtrack_fuel_irrelevant; lia.
  - apply backtrack_total.
Qed.

Lemma backtrack_terminates_witness :
  backtrack_fuel (Examples.two_slots [])
                 [(Examples.X, ["cat"]); (Examples.Y, ["tap"])] 7 []
  = backtrack (Examples.two_slots [])
              [(Examples.X, ["cat"]); (Examples.Y, ["tap"])] [].
Proof.
  apply (backtrack_terminates (Examples.two_slots [])).
  vm_compute. lia.
Defined.

(** ** When [consistent] answers [True] *)

Lemma all_ok_intro {A : Type} (f : A -> result bool) l :
  (forall x, In x l -> f x = Ret true) -> all_ok f l = Ret true.
Proof.
  induction l as [|x l IH]; simpl; intros H; auto.
  rewrite (H x) by auto. auto.
Qed.

Lemma check_entry_ok c a e :
  check_entry c a e = Ret true <-> entry_ok c a e.
Proof.
  destruct e as [v [w|]]; unfold check_entry, entry_ok; simpl; [|tauto].
  destruct (Nat.eqb (String.length w) (Var.length v)) eqn:Len; simpl.
  - apply Nat.eqb_eq in Len. split.
    + intros H. split; auto. intros u w' Hu Lu.
      pose proof (all_ok_true _ _ H u Hu) as Ck.
      unfold check_neighbor in Ck. rewrite Lu in Ck.
      destruct (overlaps c (v, u)) as [[[i j]|]|]; auto; [|discriminate].
      right. destruct (String.get i w) as [x|] eqn:Gx; [|discriminate].
      destruct (String.get j w') as [y|] eqn:Gy; [|discriminate].
      injection Ck as Ck. apply Ascii.eqb_eq in Ck. subst y.
      exists i, j, x. auto.
    + intros [_ H]. apply all_ok_intro. intros u Hu.
      unfold check_neighbor.
      destruct (lookup a u) as [[w'|]|] eqn:Lu; auto.
      destruct (H u w' Hu Lu) as [->|(i & j & ch & -> & -> & ->)]; auto.
      now rewrite Ascii.eqb_refl.
  - apply Nat.eqb_neq in Len. split; [discriminate | tauto].
Qed.

(** When [consistent] answers [True]: exactly when the values of the
    assignment, [None] counted as a value, are pairwise distinct and every
    entry that holds a word has the length of its variable and agrees with
    the words of its neighbors at the recorded overlaps.  So at most one
    entry may be [None]. *)
Theorem consistent_true_iff c a :
  consistent c a = Ret true
  <-> NoDup (map snd a) /\ forall e, In e a -> entry_ok c a e.
Proof.
  unfold consistent. split.
  - destruct (Nat.eqb (List.length (map snd a))
                      (List.length (nodup option_word_dec (map snd a)))) eqn:U;
      simpl; [|discriminate].
    apply Nat.eqb_eq in U. symmetry in U. apply nodup_length_NoDup in U.
    intros H. split; auto. intros e I.
    apply check_entry_ok. now apply (all_ok_true _ _ H).
  - intros [U E]. rewrite (nodup_fixed_point option_word_dec U).
    rewrite Nat.eqb_refl. simpl. apply all_ok_intro.
    intros e I. apply check_entry_ok. auto.
Qed.

(** ** Which variable [select_unassigned_variable] answers *)

Lemma key_ltb_lt_le_trans k1 k2 k3 :
  key_ltb k1 k2 = true -> key_ltb k3 k2 = false -> key_ltb k1 k3 = true.
Proof.
  unfold key_ltb.
  rewrite !orb_true_iff, !andb_true_iff, orb_false_iff, andb_false_iff,
    !Nat.ltb_lt, Nat.ltb_ge, !Nat.eqb_eq, Nat.eqb_neq, !Z.ltb_lt, Z.ltb_ge.
  lia.
Qed.

Lemma key_le_lt_trans k1 k2 k3 :
  key_le k1 k2 -> key_ltb k2 k3 = true -> key_ltb k1 k3 = true.
Proof.
  unfold key_ltb, key_le.
  rewrite !orb_true_iff, !andb_true_iff, !Nat.ltb_lt, !Nat.eqb_eq, !Z.ltb_lt.
  lia.
Qed.

Lemma min_from_first {A : Type} (key : A -> nat * Z) l :
  forall best,
  exists l1 l2,
    best :: l = l1 ++ min_from key best l :: l2
    /\ forall x, In x l1 -> key_ltb (key (min_from key best l)) (key x) = true.
Proof.
  induction l as [|y l IH]; simpl; intros best.
  - exists [], []. split; [reflexivity | intros x []].
  - destruct (key_ltb (key y) (key best)) eqn:E.
    + destruct (IH y) as (l1 & l2 & S & F).
      exists (best :: l1), l2. split; [simpl; now rewrite <- S|].
      intros x [<-|I]; auto.
      eapply key_le_lt_trans; [|exact E].
      apply (min_from_spec key l y). now left.
    + destruct (IH best) as (l1 & l2 & S & F).
      destruct l1 as [|b l1]; simpl in S.
      * injection S as Sb Sl. exists [], (y :: l). split.
        -- simpl. now rewrite <- Sb.
        -- intros x [].
      * injection S as <- Sl. exists (best :: y :: l1), l2. split.
        -- simpl. now rewrite <- Sl.
        -- intros x [<-|[<-|I]].
           ++ apply F. now left.
           ++ eapply key_ltb_lt_le_trans; [|exact E]. apply F. now left.
           ++ apply F. now right.
Qed.

(** When the selection raises: [select_unassigned_variable] raises the
    [ValueError] of [min], and nothing else, exactly when every variable of
    the store is a key of the assignment; what it returns is a variable of
    the store that is no key of the assignment. *)
Theorem select_unassigned_variable_raises d a :
  (select_unassigned_variable d a = Raise EmptyMin
   <-> forall v, In v (keys d) -> In v (keys a))
  /\ (forall e, select_unassigned_variable d a = Raise e -> e = EmptyMin)
  /\ (forall v, select_unassigned_variable d a = Ret v ->
                In v (keys d) /\ ~ In v (keys a)).
Proof.
  pose proof (select_unassigned_variable_keys d a) as S.
  assert (unassigned d a = [] <-> forall v, In v (keys d) -> In v (keys a)) as E.
  { split.
    - intros U v K. destruct (in_dec Var_eq_dec v (keys a)) as [|N]; auto.
      assert (In v (unassigned d a)) as I by (apply unassigned_In; auto).
      now rewrite U in I.
    - intros H. destruct (unassigned d a) as [|v l] eqn:U; auto.
      assert (In v (unassigned d a)) as I by (rewrite U; now left).
      apply unassigned_In in I as [K N]. now apply H in K. }
  destruct (select_unassigned_variable d a) as [v|e|]; [| |tauto].
  - destruct S as [I _]. apply unassigned_In in I.
    split; [|split]; try discriminate.
    + split; [discriminate|]. intros H. destruct I as [K N]. now apply H in K.
    + now intros v' [= <-].
  - destruct S as [-> U]. split; [|split]; try discriminate.
    + split; auto. intros _. now apply E.
    + now intros e [= <-].
Qed.

(** Ties in the selection go to the first variable: every candidate that
    comes before the selected one in the order of the store has more words
    in its domain, or as many and a lower degree. *)
Theorem select_unassigned_variable_first d a v :
  select_unassigned_variable d a = Ret v ->
  exists l1 l2,
    unassigned d a = l1 ++ v :: l2
    /\ forall u, In u l1 -> behind d v u.
Proof.
  unfold select_unassigned_variable, py_min.
  destruct (unassigned d a) as [|x l]; [discriminate|].
  intros [= <-].
  destruct (min_from_first (select_key d) l x) as (l1 & l2 & S & F).
  exists l1, l2. split; auto.
  intros u I. specialize (F u I).
  set (m := min_from (select_key d) x l) in *.
  unfold key_ltb, select_key in F. simpl in F. unfold behind.
  rewrite orb_true_iff, andb_true_iff, Nat.ltb_lt, Nat.eqb_eq, Z.ltb_lt in F.
  lia.
Qed.

Lemma select_unassigned_variable_first_witness :
  exists l1 l2,
    unassigned [(Examples.X, ["abc"; "cde"]); (Examples.Y, ["cde"])] []
    = l1 ++ Examples.Y :: l2
    /\ forall u, In u l1 ->
                 behind [(Examples.X, ["abc"; "cde"]); (Examples.Y, ["cde"])]
                        Examples.Y u.
Proof.
  apply (select_unassigned_variable_first
           [(Examples.X, ["abc"; "cde"]); (Examples.Y, ["cde"])] []).
  reflexivity.
Defined.

(** ** Value ordering when every neighbor is in the assignment *)

Lemma count_conflicts_over_assigned d a value ns :
  (forall n, In n ns -> In n (keys a)) ->
  count_conflicts_over d a value ns = Ret 0.
Proof.
  induction ns as [|n ns IH]; simpl; intros K; auto.
  assert (has_key a n = true) as -> by (apply has_key_true; auto).
  auto.
Qed.

Lemma sort_keyed_constant {A : Type} (l : list (nat * A)) :
  (forall e, In e l -> fst e = 0) -> sort_keyed l = l.
Proof.
  induction l as [|x l IH]; simpl; intros Z; auto.
  rewrite IH by auto. destruct l as [|y l]; simpl; auto.
  rewrite (Z x), (Z y) by (simpl; auto). reflexivity.
Qed.

(** When every neighbor of the variable is a key of the assignment, no
    neighbor is counted and [order_domain_values] returns the domain in its
    own iteration order, whatever the store holds for the neighbors. *)
Theorem order_domain_values_all_assigned c d var a ws :
  lookup d var = Some ws ->
  (forall n, In n (neighbors c var) -> In n (keys a)) ->
  order_domain_values c d var a = Ret ws.
Proof.
  intros L K. unfold order_domain_values, sorted. rewrite L.
  rewrite (with_keys_total _ (count_conflicts c d a var) (fun _ => 0) ws).
  - rewrite sort_keyed_constant.
    + rewrite map_map. simpl. now rewrite map_id.
    + intros e I. apply in_map_iff in I as (w & <- & _). reflexivity.
  - intros w _. unfold count_conflicts.
    now apply count_conflicts_over_assigned.
Qed.

Lemma order_domain_values_all_assigned_witness :
  order_domain_values (Examples.two_slots [])
                      [(Examples.Y, ["tap"; "cat"; "tip"])]
                      Examples.Y [(Examples.X, Some "cat")]
  = Ret ["tap"; "cat"; "tip"].
Proof.
  apply order_domain_values_all_assigned.
  - reflexivity.
  - simpl. intros n [<-|[]]. now left.
Defined.

(** ** Invariants of the search *)

Lemma try_candidates_invariant c recur var (P : Assignment -> Prop) :
  (forall s, P s -> P (snd (recur s))) ->
  (forall s, P s -> P (assign s var None)) ->
  forall candidates,
    (forall s w, In w candidates -> P s -> P (assign s var (Some w))) ->
    forall s, P s -> P (snd (try_candidates c recur var candidates s)).
Proof.
  intros HR HN. induction candidates as [|w rest IH]; simpl; intros HS s Ps;
    auto.
  assert (P (assign s var (Some w))) as P1 by (apply HS; auto).
  assert (forall s, P s ->
                    P (snd (try_candidates c recur var rest s))) as Rest.
  { apply IH. intros s' w' I. apply HS. now right. }
  destruct (consistent c (assign s var (Some w))) as [[|]|e|]; simpl; auto.
  pose proof (HR _ P1) as P2.
  destruct (recur (assign s var (Some w))) as [[[x|]|e|] a2]; simpl in *; auto.
Qed.

Lemma with_keys_snd {A : Type} (key : A -> result nat) l :
  forall kl, with_keys key l = Ret kl -> map snd kl = l.
Proof.
  induction l as [|x l IH]; simpl; intros kl H.
  - now injection H as <-.
  - destruct (key x) as [k| |]; try discriminate.
    destruct (with_keys key l) as [kl'| |]; try discriminate.
    injection H as <-. simpl. now rewrite (IH kl' eq_refl).
Qed.

Lemma order_domain_values_In c d var a l :
  order_domain_values c d var a = Ret l ->
  forall w, In w l -> In w (domain d var).
Proof.
  unfold order_domain_values, sorted, domain.
  destruct (lookup d var) as [ws|]; [|discriminate].
  destruct (with_keys (count_conflicts c d a var) ws) as [kl| |] eqn:K;
    try discriminate.
  intros [= <-] w I. apply with_keys_snd in K. rewrite <- K.
  eapply Permutation_in; [|exact I].
  apply Permutation_map, Permutation_sym, sort_keyed_perm.
Qed.

(** ** A variable left at [None] blocks the search *)

Lemma backtrack_fuel_marker c d v fuel :
  forall a, lookup a v = Some None ->
            lookup (snd (backtrack_fuel c d fuel a)) v = Some None.
Proof.
  induction fuel as [|fuel IH]; simpl; intros a M; auto.
  destruct (assignment_complete c a); auto.
  destruct (select_unassigned_variable d a) as [var| |] eqn:S; auto.
  destruct (order_domain_values c d var a) as [ws| |]; auto.
  apply select_Ret_unassigned in S as [_ N].
  assert (v <> var) as NE by congruence.
  apply try_candidates_invariant
    with (P := fun s => lookup s v = Some None); auto.
  - intros s Ps. now rewrite lookup_assign_neq.
  - intros s w _ Ps. now rewrite lookup_assign_neq.
Qed.

(** A variable left at [None] blocks the search: from an assignment that
    maps a variable of the puzzle to [None], [backtrack] never returns an
    assignment, whatever the domains hold; it returns [None] or raises. *)
Theorem marker_blocks_search c d a v :
  In v (variables c) ->
  lookup a v = Some None ->
  forall x, fst (backtrack c d a) <> Ret (Some x).
Proof.
  intros I M x H. unfold backtrack in H.
  pose proof (backtrack_fuel_marker c d v
                (S (List.length (unassigned d a))) a M) as K.
  destruct (backtrack_fuel c d (S (List.length (unassigned d a))) a)
    as [r a'] eqn:E.
  simpl in H, K. subst r.
  apply backtrack_fuel_found in E as (_ & Cm & _).
  rewrite (assignment_complete_marker c a' v I K) in Cm. discriminate.
Qed.

Lemma marker_blocks_search_witness :
  fst (backtrack Examples.three_slots
                 [(Examples.X, ["cde"]); (Examples.Y, ["ehi"]);
                  (Examples.Z, ["cfg"])]
                 [(Examples.Z, None)])
  <> Ret (Some [(Examples.Z, Some "cfg"); (Examples.X, Some "cde");
                (Examples.Y, Some "ehi")]).
Proof.
  apply (marker_blocks_search Examples.three_slots _ _ Examples.Z).
  - simpl. auto.
  - reflexivity.
Defined.

(** ** What [solve] returns *)

Lemma backtrack_fuel_within c d fuel :
  forall a,
    (forall v, In v (keys a) -> In v (keys d)) ->
    (forall v w, lookup a v = Some (Some w) -> In w (domain d v)) ->
    (forall v, In v (keys (snd (backtrack_fuel c d fuel a))) -> In v (keys d))
    /\ (forall v w, lookup (snd (backtrack_fuel c d fuel a)) v = Some (Some w) ->
                    In w (domain d v)).
Proof.
  induction fuel as [|fuel IH]; simpl; intros a K W; auto.
  destruct (assignment_complete c a); auto.
  destruct (select_unassigned_variable d a) as [var| |] eqn:S; auto.
  destruct (order_domain_values c d var a) as [ws| |] eqn:O; auto.
  apply select_Ret_unassigned in S as [Kv _].
  apply try_candidates_invariant
    with (P := fun s =>
                 (forall v, In v (keys s) -> In v (keys d))
                 /\ (forall v w, lookup s v = Some (Some w) ->
                                 In w (domain d v))); auto.
  - intros s [Ks Ws]. now apply IH.
  - intros s [Ks Ws]. split.
    + intros v I. apply keys_assign_inv in I as [->|I]; auto.
    + intros v w. rewrite lookup_assign.
      destruct (Var.eqb var v); [discriminate | auto].
  - intros s w I [Ks Ws]. split.
    + intros v I'. apply keys_assign_inv in I' as [->|I']; auto.
    + intros v w'. rewrite lookup_assign. var_eq var v; auto.
      intros [= <-]. eapply order_domain_values_In; eauto.
Qed.

(** What [solve] returns: the keys of a returned assignment are exactly the
    variables of the puzzle, and each maps to a word, never to [None], that
    is in the word list and has the length of the variable. *)
Theorem solve_returns_full_assignment c a :
  fst (solve c) = Ret (Some a) ->
  (forall v, In v (keys a) <-> In v (variables c))
  /\ (forall v, In v (variables c) ->
                exists w, lookup a v = Some (Some w)
                          /\ In w (words c)
                          /\ String.length w = Var.length v).
Proof.
  unfold solve.
  destruct (enforce_node_consistency (init_domains c)) as [[[]|e|] d1] eqn:E;
    try discriminate.
  pose proof (ac3_shrinks c None d1) as Sh.
  destruct (ac3 c None d1) as [[b|e|] d2] eqn:A; try discriminate.
  simpl in Sh. destruct Sh as [K2 Sub].
  apply enforce_ret in E as [K1 Pr]. rewrite keys_init_domains in K1.
  cbn [fst]. unfold backtrack.
  destruct (backtrack_fuel_within c d2 (S (List.length (unassigned d2 []))) [])
    as [Ka Wa]; [intros v [] | discriminate |].
  destruct (backtrack_fuel c d2 (S (List.length (unassigned d2 []))) [])
    as [r a'] eqn:B.
  cbn [fst snd] in *. intros ->.
  apply backtrack_fuel_found in B as (-> & Cm & _).
  assert (forall v, In v (variables c) ->
                    exists w, lookup a' v = Some (Some w)) as Full.
  { intros v I. unfold assignment_complete in Cm.
    rewrite forallb_forall in Cm. specialize (Cm v I).
    destruct (lookup a' v) as [[w|]|]; try discriminate. eauto. }
  split.
  - intros v. split.
    + intros I. apply Ka in I. now rewrite K2, K1 in I.
    + intros I. destruct (Full v I) as [w L]. eapply lookup_Some_key; eauto.
  - intros v I. destruct (Full v I) as [w L]. exists w. split; auto.
    pose proof (Wa v w L) as D. unfold domain in D.
    destruct (lookup d2 v) as [ws2|] eqn:L2; [|destruct D].
    destruct (Sub v ws2 L2) as (ws1 & L1 & Inc). apply Inc in D.
    assert (In v (keys (init_domains c))) as Ki
      by (now rewrite keys_init_domains).
    apply key_lookup in Ki as [ws0 L0].
    destruct (Pr v ws0 L0) as [L1' _]. rewrite L1 in L1'.
    injection L1' as ->. apply lookup_init_domains in L0. subst ws0.
    apply filter_In in D as [Iw F]. split; auto.
    now apply Nat.eqb_eq in F.
Qed.

Lemma solve_returns_full_assignment_witness :
  exists w, lookup [(Examples.X, Some "cat"); (Examples.Y, Some "tap")]
                   Examples.Y = Some (Some w)
            /\ In w ["cat"; "tap"]
            /\ String.length w = Var.length Examples.Y.
Proof.
  apply (proj2 (solve_returns_full_assignment
                  (Examples.two_slots ["cat"; "tap"])
                  [(Examples.X, Some "cat"); (Examples.Y, Some "tap")]
                  eq_refl)).
  simpl. auto.
Defined.

(** A puzzle without variables: node consistency, AC-3 and the search all
    run, and [solve] returns the empty assignment. *)
Theorem solve_no_variables c :
  variables c = [] ->
  solve c = (Ret (Some []), [NodeConsistency; ArcConsistency; Search]).
Proof.
  intros H. unfold solve, init_domains, ac3, get_arcs, backtrack.
  rewrite H. simpl. unfold assignment_complete. rewrite H. reflexivity.
Qed.

Lemma solve_no_variables_witness :
  solve {| variables := []; words := ["cat"];
           overlaps := fun _ => None; neighbors := fun _ => [] |}
  = (Ret (Some []), [NodeConsistency; ArcConsistency; Search]).
Proof. apply solve_no_variables. reflexivity. Defined.

(** ** No lookup or index fails on a puzzle in range *)

Lemma get_in_range (s : string) :
  forall n, n < String.length s -> exists ch, String.get n s = Some ch.
Proof.
  induction s as [|a s IH]; simpl; intros n H; [lia|].
  destruct n as [|n]; eauto. apply IH. lia.
Qed.

Lemma any_match_returns vx i j dy :
  i < String.length vx ->
  (forall vy, In vy dy -> j < String.length vy) ->
  exists b, any_match vx i j dy = Ret b.
Proof.
  intros Hi. induction dy as [|vy dy IH]; simpl; intros Hj; eauto.
  destruct (get_in_range vx i Hi) as [x ->].
  destruct (get_in_range vy j) as [y ->]; auto.
  destruct (Ascii.eqb x y); eauto.
Qed.

Lemma values_to_remove_returns d y i j dy dx :
  lookup d y = Some dy ->
  (forall vx, In vx dx -> i < String.length vx) ->
  (forall vy, In vy dy -> j < String.length vy) ->
  exists rm, values_to_remove d y i j dx = Ret rm.
Proof.
  intros L Hi Hj. revert Hi.
  induction dx as [|vx dx IH]; simpl; intros Hi; eauto.
  unfold has_support. rewrite L.
  destruct (any_match_returns vx i j dy) as [b ->]; auto.
  destruct IH as [rm ->]; eauto.
Qed.

Lemma revise_returns c x y d :
  InRange c -> lengths_ok d ->
  In x (keys d) -> In y (keys d) ->
  exists b, fst (revise c x y d) = Ret b.
Proof.
  intros IR LO Kx Ky. unfold revise.
  destruct (overlaps c (x, y)) as [[[i j]|]|] eqn:O; simpl; eauto.
  destruct (ir_index IR _ _ O) as [Hi Hj].
  apply key_lookup in Kx as [dx Lx]. apply key_lookup in Ky as [dy Ly].
  rewrite Lx.
  destruct (values_to_remove_returns d y i j dy dx Ly) as [rm ->].
  - intros vx I. rewrite (LO x dx vx Lx I). exact Hi.
  - intros vy I. rewrite (LO y dy vy Ly I). exact Hj.
  - destruct rm; simpl; eauto.
Qed.

Lemma shrinks_lengths_ok d d' : shrinks d d' -> lengths_ok d -> lengths_ok d'.
Proof.
  intros [_ Sub] LO v ws' w L I.
  destruct (Sub v ws' L) as (ws & L0 & Inc). eapply LO; eauto.
Qed.

Lemma ac3_loop_returns c :
  InRange c ->
  forall fuel q d,
    total_size d < fuel ->
    lengths_ok d -> keys d = variables c ->
    (forall X Y, In (X, Y) q -> In X (keys d) /\ In Y (keys d)) ->
    exists b, fst (ac3_loop c fuel q d) = Ret b.
Proof.
  intros IR fuel q d T LO K Q.
  assert (forall fuel q d,
             lengths_ok d -> keys d = variables c ->
             (forall X Y, In (X, Y) q -> In X (keys d) /\ In Y (keys d)) ->
             (exists b, fst (ac3_loop c fuel q d) = Ret b)
             \/ fst (ac3_loop c fuel q d) = OutOfFuel) as Weak.
  { clear fuel q d T LO K Q.
    induction fuel as [|fuel IH]; intros q d LO K Q; simpl; auto.
    revert d LO K Q. induction q as [|[X Y] rest IHq]; intros d LO K Q; simpl;
      eauto.
    destruct (Q X Y (or_introl eq_refl)) as [KX KY].
    destruct (revise_returns c X Y d IR LO KX KY) as [b R].
    pose proof (revise_shrinks c X Y d) as Sh.
    destruct (revise c X Y d) as [r d1]. simpl in R, Sh. subst r.
    pose proof (shrinks_lengths_ok d d1 Sh LO) as LO1.
    destruct Sh as [K1 _].
    assert (forall A B, In (A, B) rest -> In A (keys d1) /\ In B (keys d1))
      as Q1.
    { intros A B I. rewrite K1. apply Q. now right. }
    destruct b.
    - assert (In X (keys d1)) as KX1 by now rewrite K1.
      apply key_lookup in KX1 as [ws ->].
      destruct ws as [|w ws]; simpl; eauto.
      apply IH; auto; [congruence|].
      intros A B I. apply in_app_or in I as [I|I]; auto.
      unfold requeue in I. apply in_map_iff in I as (Z & [= <- <-] & I).
      apply filter_In in I as [I _]. rewrite K1. split; auto.
      rewrite K in *. eapply (ir_neighbors_vars IR); [exact KX | exact I].
    - apply IHq; auto. congruence. }
  destruct (Weak fuel q d LO K Q) as [R|F]; auto.
  now apply ac3_loop_total in F.
Qed.

Lemma get_arcs_keys c (d : Domains) :
  InRange c -> keys d = variables c ->
  forall X Y, In (X, Y) (get_arcs c) -> In X (keys d) /\ In Y (keys d).
Proof.
  intros IR K X Y I. unfold get_arcs in I.
  apply in_flat_map in I as (X' & VX & I).
  apply in_map_iff in I as (Y' & [= <- <-] & NY).
  rewrite K. split; auto. eapply ir_neighbors_vars; eauto.
Qed.

(** On a puzzle in range, [ac3] over all arcs never raises when the store
    holds a domain for every variable and every word has the length of its
    variable: it returns [True] or [False]. *)
Theorem ac3_never_raises c d :
  InRange c ->
  keys d = variables c ->
  lengths_ok d ->
  exists b, fst (ac3 c None d) = Ret b.
Proof.
  intros IR K LO. unfold ac3. apply ac3_loop_returns; auto.
  now apply get_arcs_keys.
Qed.

Lemma two_slots_InRange ws : InRange (Examples.two_slots ws).
Proof.
  constructor; simpl.
  - intros x y _. unfold Examples.neighbors2.
    destruct (Var.eqb x Examples.X); [intros [<-|[]]; auto|].
    destruct (Var.eqb x Examples.Y); [intros [<-|[]]; auto | intros []].
  - intros x y _. unfold Examples.overlaps2.
    destruct (Var.eqb x Examples.X && Var.eqb y Examples.Y); [discriminate|].
    destruct (Var.eqb x Examples.Y && Var.eqb y Examples.X); discriminate.
  - intros x y i j. unfold Examples.overlaps2.
    destruct (Var.eqb x Examples.X && Var.eqb y Examples.Y) eqn:E1.
    + apply andb_true_iff in E1 as [E1 E2].
      apply Var_eqb_eq in E1, E2. subst. intros [= <- <-]. simpl. lia.
    + destruct (Var.eqb x Examples.Y && Var.eqb y Examples.X) eqn:E2;
        [|discriminate].
      apply andb_true_iff in E2 as [E2 E3].
      apply Var_eqb_eq in E2, E3. subst. intros [= <- <-]. simpl. lia.
Qed.

Lemma ac3_never_raises_witness :
  exists b,
    fst (ac3 (Examples.two_slots [])
             None [(Examples.X, ["cat"; "tap"]); (Examples.Y, ["cat"; "tap"])])
    = Ret b.
Proof.
  apply ac3_never_raises.
  - apply two_slots_InRange.
  - reflexivity.
  - intros v ws w. simpl.
    destruct (Var.eqb Examples.X v) eqn:EX.
    + apply Var_eqb_eq in EX. subst v.
      intros [= <-] [<-|[<-|[]]]; reflexivity.
    + destruct (Var.eqb Examples.Y v) eqn:EY; [|discriminate].
      apply Var_eqb_eq in EY. subst v.
      intros [= <-] [<-|[<-|[]]]; reflexivity.
Defined.

Lemma all_ok_returns {A : Type} (f : A -> result bool) l :
  (forall x, In x l -> exists b, f x = Ret b) -> exists b, all_ok f l = Ret b.
Proof.
  induction l as [|x l IH]; simpl; intros H; eauto.
  destruct (H x) as [[|] ->]; eauto.
Qed.

Lemma consistent_returns c s :
  InRange c ->
  (forall v w, lookup s v = Some (Some w) -> String.length w = Var.length v) ->
  exists b, consistent c s = Ret b.
Proof.
  intros IR LO. unfold consistent.
  destruct (negb _); eauto.
  apply all_ok_returns. intros [v [w|]] _; unfold check_entry; simpl; eauto.
  destruct (Nat.eqb (String.length w) (Var.length v)) eqn:Len; simpl; eauto.
  apply Nat.eqb_eq in Len.
  apply all_ok_returns. intros u Hu. unfold check_neighbor.
  destruct (lookup s u) as [[w'|]|] eqn:Lu; eauto.
  pose proof (ir_recorded IR _ _ Hu) as Rec.
  destruct (overlaps c (v, u)) as [[[i j]|]|] eqn:O; eauto; [|congruence].
  destruct (ir_index IR _ _ O) as [Hi Hj].
  destruct (get_in_range w i) as [x ->]; [lia|].
  destruct (get_in_range w' j) as [y ->]; eauto.
  rewrite (LO u w' Lu). exact Hj.
Qed.

Lemma try_candidates_raises c recur var (Inv : Assignment -> Prop) :
  (forall s, Inv s -> forall e, fst (recur s) = Raise e -> e = EmptyMin) ->
  (forall s, Inv s -> Inv (snd (recur s))) ->
  (forall s, Inv s -> Inv (assign s var None)) ->
  (forall s, Inv s -> exists b, consistent c s = Ret b) ->
  forall candidates,
    (forall s w, In w candidates -> Inv s -> Inv (assign s var (Some w))) ->
    forall s, Inv s ->
              forall e, fst (try_candidates c recur var candidates s) = Raise e ->
                        e = EmptyMin.
Proof.
  intros HE HR HN HC.
  induction candidates as [|w rest IH]; simpl; intros HS s I e; [discriminate|].
  assert (Inv (assign s var (Some w))) as I1 by (apply HS; auto).
  assert (forall s, Inv s ->
                    forall e, fst (try_candidates c recur var rest s) = Raise e ->
                              e = EmptyMin) as Rest.
  { apply IH. intros s' w' Iw. apply HS. now right. }
  destruct (HC _ I1) as [b ->].
  destruct b.
  - pose proof (HE _ I1) as E1. pose proof (HR _ I1) as I2.
    destruct (recur (assign s var (Some w))) as [[[x|]|e'|] a2];
      simpl in *; try discriminate; auto.
    apply Rest. now apply HN.
  - apply Rest. now apply HN.
Qed.

Lemma backtrack_fuel_raises c d :
  InRange c -> keys d = variables c -> lengths_ok d ->
  forall fuel a,
    (forall v, In v (keys a) -> In v (keys d)) ->
    (forall v w, lookup a v = Some (Some w) -> In w (domain d v)) ->
    forall e, fst (backtrack_fuel c d fuel a) = Raise e -> e = EmptyMin.
Proof.
  intros IR K LO.
  assert (forall s,
             (forall v w, lookup s v = Some (Some w) -> In w (domain d v)) ->
             forall v w, lookup s v = Some (Some w) ->
                         String.length w = Var.length v) as Len.
  { intros s W v w L. apply W in L. unfold domain in L.
    destruct (lookup d v) as [ws|] eqn:Ld; [|destruct L]. eapply LO; eauto. }
  induction fuel as [|fuel IH]; simpl; intros a Ka Wa e; [discriminate|].
  destruct (assignment_complete c a); [discriminate|].
  pose proof (select_unassigned_variable_keys d a) as S.
  destruct (select_unassigned_variable d a) as [var|e'|]; simpl;
    [|intros [= <-]; tauto | tauto].
  destruct S as [U _]. apply unassigned_In in U as [Kv _].
  destruct (key_lookup d var Kv) as [ws L].
  destruct (order_domain_values_conflicts c d var a ws L) as (l & O & _).
  { intros n Hn. rewrite K in *. eapply (ir_neighbors_vars IR); eauto. }
  rewrite O.
  apply try_candidates_raises
    with (Inv := fun s =>
                   (forall v, In v (keys s) -> In v (keys d))
                   /\ (forall v w, lookup s v = Some (Some w) ->
                                   In w (domain d v))); auto.
  - intros s [Ks Ws]. now apply IH.
  - intros s [Ks Ws]. now apply backtrack_fuel_within.
  - intros s [Ks Ws]. split.
    + intros v I. apply keys_assign_inv in I as [->|I]; auto.
    + intros v w. rewrite lookup_assign.
      destruct (Var.eqb var v); [discriminate | auto].
  - intros s [Ks Ws]. apply consistent_returns; auto. now apply Len.
  - intros s w I [Ks Ws]. split.
    + intros v I'. apply keys_assign_inv in I' as [->|I']; auto.
    + intros v w'. rewrite lookup_assign. var_eq var v; auto.
      intros [= <-]. eapply order_domain_values_In; eauto.
Qed.

(** The exceptions of [solve]: on a puzzle in range no lookup in a dict and
    no index into a word fails.  What [solve] raises is the error of node
    consistency, naming a variable for which the word list has no word of
    its length, or the [ValueError] of [min] in the selection. *)
Theorem solve_raises_only c e :
  InRange c ->
  fst (solve c) = Raise e ->
  expected_error c e.
Proof.
  intros IR. unfold solve.
  destruct (enforce_node_consistency (init_domains c)) as [[[]|e1|] d1] eqn:E;
    simpl.
  - pose proof (enforce_ret_node_consistent _ _ E) as NC.
    apply enforce_ret in E as [K1 _]. rewrite keys_init_domains in K1.
    assert (lengths_ok d1) as LO1.
    { intros v ws w L I. destruct (NC v ws L) as [F _].
      rewrite <- F in I. apply filter_In in I as [_ I].
      now apply Nat.eqb_eq in I. }
    assert (exists b, fst (ac3_loop c (S (total_size d1)) (get_arcs c) d1)
                      = Ret b) as [b A].
    { apply (ac3_loop_returns c IR);
        [lia | exact LO1 | exact K1 | now apply get_arcs_keys]. }
    pose proof (ac3_shrinks c None d1) as Sh.
    unfold ac3 in *.
    destruct (ac3_loop c (S (total_size d1)) (get_arcs c) d1) as [r d2].
    simpl in A, Sh. subst r. simpl.
    intros H. left.
    eapply (backtrack_fuel_raises c d2 IR); [| | | |exact H].
    + destruct Sh as [K2 _]. congruence.
    + eapply shrinks_lengths_ok; eauto.
    + intros v [].
    + discriminate.
  - intros [= <-]. right.
    apply enforce_raise in E as (v & ws & -> & _ & L & F).
    exists v. split; auto. split.
    + rewrite <- keys_init_domains. eapply lookup_Some_key; eauto.
    + apply lookup_init_domains in L. subst ws. intros w Hw Len.
      assert (In w (filter (fits v) (words c))) as I.
      { apply filter_In. split; auto. now apply Nat.eqb_eq. }
      now rewrite F in I.
  - discriminate.
Qed.

Lemma solve_raises_only_witness :
  expected_error (Examples.one_slot ["cat"; "dog"]) (NoValuesLeft Examples.W).
Proof.
  apply solve_raises_only.
  - constructor; simpl; try tauto; discriminate.
  - reflexivity.
Defined.

(** ** The letter grid *)

Lemma replace_length {A : Type} (x : A) (l : list A) :
  forall n, List.length (replace n x l) = List.length l.
Proof.
  induction l as [|y l IH]; intros [|n]; simpl; auto.
Qed.

Lemma nth_replace_eq {A : Type} (x d : A) (l : list A) :
  forall n, n < List.length l -> nth n (replace n x l) d = x.
Proof.
  induction l as [|y l IH]; intros [|n]; simpl; intros H; try lia; auto.
  apply IH. lia.
Qed.

Lemma nth_replace_neq {A : Type} (x d : A) (l : list A) :
  forall n m, n <> m -> nth m (replace n x l) d = nth m l d.
Proof.
  induction l as [|y l IH]; intros [|n] [|m]; simpl; intros H; auto;
    try congruence.
Qed.

Lemma In_replace {A : Type} (x y : A) (l : list A) :
  forall n, In y (replace n x l) -> y = x \/ In y l.
Proof.
  induction l as [|z l IH]; intros [|n]; simpl; auto.
  - intros [->|I]; auto.
  - intros [->|I]; auto. destruct (IH _ I); auto.
Qed.

Lemma cell_eqb_eq c1 c2 : cell_eqb c1 c2 = true <-> c1 = c2.
Proof.
  destruct c1 as [i1 j1], c2 as [i2 j2]. unfold cell_eqb. simpl.
  rewrite andb_true_iff, !Nat.eqb_eq. split.
  - intros [-> ->]. reflexivity.
  - intros [= -> ->]. auto.
Qed.

Lemma cell_eqb_neq c1 c2 : cell_eqb c1 c2 = false <-> c1 <> c2.
Proof.
  rewrite <- cell_eqb_eq. destruct (cell_eqb c1 c2); split; congruence.
Qed.

(** One write into a rectangular array: it succeeds inside the array, and
    changes that cell only. *)
Lemma set_cell_inside height width letters i j ch :
  rectangular height width letters ->
  i < height -> j < width ->
  exists letters',
    set_cell letters i j ch = Ret letters'
    /\ rectangular height width letters'
    /\ forall cell, get_cell letters' cell
                    = if cell_eqb cell (i, j) then Some ch
                      else get_cell letters cell.
Proof.
  intros [Hh Hw] Hi Hj. unfold set_cell.
  destruct (nth_error letters i) as [row|] eqn:N.
  2:{ apply nth_error_None in N. lia. }
  assert (List.length row = width) as Lr.
  { apply Hw. eapply nth_error_In; eauto. }
  assert (Nat.ltb j (List.length row) = true) as ->.
  { apply Nat.ltb_lt. lia. }
  eexists. split; [reflexivity|]. split.
  - split.
    + now rewrite replace_length.
    + intros r I. apply In_replace in I as [->|I]; auto.
      now rewrite replace_length.
  - intros [i' j']. unfold get_cell, cell_eqb. simpl.
    destruct (Nat.eqb_spec i' i) as [->|Ni]; simpl.
    + rewrite nth_replace_eq by lia.
      destruct (Nat.eqb_spec j' j) as [->|Nj].
      * apply nth_replace_eq. lia.
      * rewrite nth_replace_neq by congruence.
        now rewrite (nth_error_nth _ _ _ N).
    + rewrite nth_replace_neq by congruence. reflexivity.
Qed.

Lemma set_cell_outside height width letters i j ch :
  rectangular height width letters ->
  ~ (i < height /\ j < width) ->
  set_cell letters i j ch = Raise IndexError.
Proof.
  intros [Hh Hw] Out. unfold set_cell.
  destruct (nth_error letters i) as [row|] eqn:N; auto.
  assert (List.length row = width) as Lr.
  { apply Hw. eapply nth_error_In; eauto. }
  assert (i < height).
  { rewrite <- Hh. apply nth_error_Some. congruence. }
  destruct (Nat.ltb_spec j (List.length row)); auto.
  exfalso. apply Out. lia.
Qed.

Lemma in_grid_dec height width cell :
  {in_grid height width cell} + {~ in_grid height width cell}.
Proof.
  unfold in_grid.
  destruct (lt_dec (fst cell) height), (lt_dec (snd cell) width);
    auto; right; tauto.
Qed.

Lemma paint_word_ext variable word ks :
  forall f f', (forall cell, f cell = f' cell) ->
               forall cell, paint_word variable word ks f cell
                            = paint_word variable word ks f' cell.
Proof.
  induction ks as [|k ks IH]; simpl; intros f f' E cell; auto.
  apply IH. intros c. now rewrite E.
Qed.

Lemma paint_ext items :
  forall f f', (forall cell, f cell = f' cell) ->
               forall cell, paint items f cell = paint items f' cell.
Proof.
  induction items as [|[v [w|]] items IH]; simpl; intros f f' E cell; auto.
  apply IH. now apply paint_word_ext.
Qed.

(** The writes of one word, on a rectangular array: they all succeed when
    the word stays inside, the first one outside raises [IndexError]. *)
Lemma write_word_cases height width variable word ks :
  (forall k, In k ks -> k < String.length word) ->
  forall letters,
    rectangular height width letters ->
    (exists letters',
        write_word letters variable word ks = Ret letters'
        /\ rectangular height width letters'
        /\ (forall k, In k ks -> in_grid height width (cell_of variable k))
        /\ forall cell, get_cell letters' cell
                        = paint_word variable word ks (get_cell letters) cell)
    \/ (write_word letters variable word ks = Raise IndexError
        /\ exists k, In k ks
                     /\ ~ in_grid height width (cell_of variable k)).
Proof.
  induction ks as [|k ks IH]; intros R letters Rect;
    cbn [write_word paint_word].
  - left. exists letters. split; [reflexivity|]. split; [exact Rect|].
    split; [intros k []|reflexivity].
  - destruct (get_in_range word k (R k (or_introl eq_refl))) as [ch G].
    rewrite G.
    destruct (in_grid_dec height width (cell_of variable k)) as [I|O].
    + destruct I as [Ii Ij].
      destruct (set_cell_inside height width letters _ _ ch Rect Ii Ij)
        as (l1 & -> & R1 & G1).
      destruct (IH (fun k' H => R k' (or_intror H)) l1 R1)
        as [(l2 & W & R2 & In2 & G2)|[W (k' & I' & O')]].
      * left. exists l2. split; [exact W|]. split; [exact R2|]. split.
        -- intros k' [<-|I']; [split|]; auto.
        -- intros cell. rewrite G2. apply paint_word_ext.
           intros c. rewrite G1. rewrite <- G.
           destruct (cell_of variable k); reflexivity.
      * right. split; [exact W|]. exists k'. split; [now right|exact O'].
    + right. split.
      * rewrite (set_cell_outside height width); auto.
      * exists k. split; [now left|exact O].
Qed.

(** The whole loop, on a rectangular array. *)
Lemma fill_cases height width items :
  forall letters,
    rectangular height width letters ->
    (exists letters',
        fill letters items = Ret letters'
        /\ rectangular height width letters'
        /\ fits_grid height width items
        /\ forall cell, get_cell letters' cell
                        = paint items (get_cell letters) cell)
    \/ (fill letters items = Raise TypeError
        /\ exists v, In (v, None) items)
    \/ (fill letters items = Raise IndexError
        /\ exists v word k,
             In (v, Some word) items /\ k < String.length word
             /\ ~ in_grid height width (cell_of v k)).
Proof.
  induction items as [|[v [word|]] items IH]; simpl; intros letters Rect.
  - left. exists letters. split; [reflexivity|]. split; [exact Rect|].
    split; [intros e []|reflexivity].
  - destruct (write_word_cases height width v word
                               (seq 0 (String.length word)))
      with (letters := letters)
      as [(l1 & -> & R1 & In1 & G1)|[-> (k & I & O)]]; auto.
    { intros k I. apply in_seq in I. lia. }
    + destruct (IH l1 R1)
        as [(l2 & F & R2 & Fit & G2)|[[F (v' & I')]
                                     |[F (v' & w' & k' & I' & L' & O')]]].
      * left. exists l2. split; [exact F|]. split; [exact R2|]. split.
        -- intros e [<-|I]; auto. exists word. split; auto.
           intros k L. apply In1. apply in_seq. lia.
        -- intros cell. rewrite G2. now apply paint_ext.
      * right. left. split; eauto.
      * right. right. split; auto. exists v', w', k'. auto.
    + right. right. split; auto. exists v, word, k.
      apply in_seq in I. repeat split; auto. lia.
  - right. left. split; eauto.
Qed.

Lemma paint_word_cases variable word ks :
  forall f cell,
    (paint_word variable word ks f cell = f cell
     /\ forall k, In k ks -> cell_of variable k <> cell)
    \/ exists k, In k ks /\ cell_of variable k = cell
                 /\ paint_word variable word ks f cell = String.get k word.
Proof.
  induction ks as [|k ks IH]; simpl; intros f cell.
  - left. split; auto.
  - destruct (IH (fun cell => if cell_eqb cell (cell_of variable k)
                              then String.get k word else f cell) cell)
      as [[E N]|(k' & I & C & E)].
    + rewrite E. destruct (cell_eqb cell (cell_of variable k)) eqn:Q.
      * apply cell_eqb_eq in Q. right. exists k. auto.
      * apply cell_eqb_neq in Q. left. split; auto.
        intros k' [<-|I]; auto.
    + right. exists k'. auto.
Qed.

Lemma paint_cases items :
  forall f cell,
    (paint items f cell = f cell
     /\ forall v word k, In (v, Some word) items -> k < String.length word ->
                         cell_of v k <> cell)
    \/ exists v word k,
         In (v, Some word) items /\ k < String.length word
         /\ cell_of v k = cell
         /\ paint items f cell = String.get k word.
Proof.
  induction items as [|[v [word|]] items IH]; simpl; intros f cell.
  - left. split; auto.
  - destruct (IH (paint_word v word (seq 0 (String.length word)) f) cell)
      as [[E N]|(v' & w' & k' & I & L & C & E)].
    + rewrite E.
      destruct (paint_word_cases v word (seq 0 (String.length word)) f cell)
        as [[E' N']|(k & I & C & E')].
      * left. split; auto.
        intros v' w' k' [[= <- <-]|I] L; eauto.
        apply N'. apply in_seq. lia.
      * right. exists v, word, k. apply in_seq in I.
        repeat split; auto. lia.
    + right. exists v', w', k'. auto.
  - destruct (IH f cell) as [[E N]|(v' & w' & k' & I & L & C & E)].
    + left. split; auto. intros v' w' k' [[=]|I]; eauto.
    + right. exists v', w', k'. auto.
Qed.

Lemma blank_rectangular height width :
  rectangular height width (repeat (repeat None width) height).
Proof.
  split.
  - apply repeat_length.
  - intros row I. apply repeat_spec in I as ->. apply repeat_length.
Qed.

Lemma blank_get_cell height width cell :
  get_cell (repeat (repeat None width) height) cell = None.
Proof.
  unfold get_cell.
  assert (forall (A : Type) (x d : A) n m, nth m (repeat x n) d = x
                                           \/ nth m (repeat x n) d = d) as R.
  { intros A x d n. induction n as [|n IH]; intros [|m]; simpl; auto. }
  destruct (R _ (repeat (@None ascii) width) [] height (fst cell)) as [->| ->].
  - destruct (R _ (@None ascii) None width (snd cell)) as [->| ->]; auto.
  - now destruct (snd cell).
Qed.

Lemma letter_grid_cases height width a :
  (exists letters,
      letter_grid height width a = Ret letters
      /\ rectangular height width letters
      /\ fits_grid height width a
      /\ forall cell, get_cell letters cell = paint a (fun _ => None) cell)
  \/ (letter_grid height width a = Raise TypeError
      /\ exists v, In (v, None) a)
  \/ (letter_grid height width a = Raise IndexError
      /\ exists v word k,
           In (v, Some word) a /\ k < String.length word
           /\ ~ in_grid height width (cell_of v k)).
Proof.
  unfold letter_grid.
  destruct (fill_cases height width a _ (blank_rectangular height width))
    as [(g & F & R & Fit & G)|[F|F]]; auto.
  left. exists g. split; [exact F|]. split; [exact R|]. split; [exact Fit|].
  intros cell. rewrite G. apply paint_ext. intros c. apply blank_get_cell.
Qed.

Lemma paint_agree a f v word k :
  agree a -> In (v, Some word) a -> k < String.length word ->
  paint a f (cell_of v k) = String.get k word.
Proof.
  intros Ag I L.
  destruct (paint_cases a f (cell_of v k))
    as [[_ N]|(v' & w' & k' & I' & L' & Q & E)].
  - exfalso. eapply N; eauto.
  - rewrite E. now apply (Ag v' w' k' v word k).
Qed.

(** [letter_grid] returns an array exactly when every entry holds a word
    whose cells all lie inside the [height] by [width] grid. Otherwise it
    raises: [TypeError] only if some entry holds [None], [IndexError] only if
    some letter of some word falls outside the grid. *)
Theorem letter_grid_returns_iff height width a :
  ((exists letters, letter_grid height width a = Ret letters)
   <-> fits_grid height width a)
  /\ (letter_grid height width a = Raise TypeError ->
      exists v, In (v, None) a)
  /\ (letter_grid height width a = Raise IndexError ->
      exists v word k, In (v, Some word) a /\ k < String.length word
                       /\ ~ in_grid height width (cell_of v k))
  /\ forall e, letter_grid height width a = Raise e ->
               e = TypeError \/ e = IndexError.
Proof.
  destruct (letter_grid_cases height width a)
    as [(g & F & R & Fit & G)|[[F (v & I)]
                              |[F (v & w & k & I & L & O)]]];
    rewrite F.
  - split; [split; eauto|]. repeat split; discriminate.
  - split; [split|].
    + intros [g [=]].
    + intros Fit. destruct (Fit _ I) as (w & [=] & _).
    + split; [eauto|]. split; [discriminate|]. intros e [= <-]. auto.
  - split; [split|].
    + intros [g [=]].
    + intros Fit. destruct (Fit _ I) as (w' & [= <-] & In'). exfalso.
      apply O. now apply In'.
    + split; [discriminate|]. split.
      * intros _. exists v, w, k. auto.
      * intros e [= <-]. auto.
Qed.

Lemma letter_grid_returns_iff_witness :
  exists letters,
    letter_grid 3 3 [(Examples.X, Some "cat"); (Examples.Y, Some "tap")]
    = Ret letters.
Proof.
  apply (proj1 (letter_grid_returns_iff
                  3 3 [(Examples.X, Some "cat"); (Examples.Y, Some "tap")])).
  intros e [<-|[<-|[]]]; eexists; (split; [reflexivity|]);
    intros k L; simpl in L; unfold in_grid, cell_of; simpl; lia.
Defined.

(** The array [letter_grid] returns has [height] rows of [width] cells;
    every letter in it is a letter of some entry's word at that cell, so the
    cells no word covers hold [None]; and when the words agree where they
    share a cell, every letter of every word is in its cell. *)
Theorem letter_grid_shows_words height width a letters :
  letter_grid height width a = Ret letters ->
  rectangular height width letters
  /\ (forall cell ch,
         get_cell letters cell = Some ch ->
         exists v word k, In (v, Some word) a /\ cell_of v k = cell
                          /\ String.get k word = Some ch)
  /\ (agree a ->
      forall v word k, In (v, Some word) a -> k < String.length word ->
                       get_cell letters (cell_of v k) = String.get k word).
Proof.
  intros H.
  destruct (letter_grid_cases height width a)
    as [(g & F & R & Fit & G)|[[F _]|[F _]]];
    rewrite F in H; try discriminate.
  injection H as <-.
  split; [exact R|]. split.
  - intros cell ch C. rewrite G in C.
    destruct (paint_cases a (fun _ => None) cell)
      as [[E _]|(v & w & k & I & L & Q & E)]; [congruence|].
    exists v, w, k. repeat split; auto. congruence.
  - intros Ag v word k I L. rewrite G. now apply paint_agree.
Qed.

Lemma letter_grid_shows_words_witness :
  rectangular
    3 3 [[Some "c"%char; Some "a"%char; Some "t"%char];
         [None; None; Some "a"%char];
         [None; None; Some "p"%char]].
Proof.
  apply (letter_grid_shows_words
           3 3 [(Examples.X, Some "cat"); (Examples.Y, Some "tap")]).
  reflexivity.
Defined.

(** ** Showing the solution *)

Lemma assign_NoDup {V : Type} (m : list (Var.t * V)) k v :
  NoDup (keys m) -> NoDup (keys (assign m k v)).
Proof.
  intros N. destruct (in_dec Var_eq_dec k (keys m)) as [I|I].
  - now rewrite keys_assign_present.
  - rewrite keys_assign_absent by exact I.
    apply NoDup_rev in N. rewrite <- (rev_involutive (keys m ++ [k])).
    apply NoDup_rev. rewrite rev_app_distr. simpl. constructor; auto.
    now rewrite <- in_rev.
Qed.

Lemma In_lookup_NoDup {V : Type} (m : list (Var.t * V)) k v :
  NoDup (keys m) -> In (k, v) m -> lookup m k = Some v.
Proof.
  induction m as [|[k' v'] m IH]; simpl; intros N I; [destruct I|].
  inversion N as [|? ? NI N']; subst.
  destruct I as [[= -> ->]|I].
  - now rewrite Var_eqb_refl.
  - var_eq k' k.
    + exfalso. apply NI. change k with (fst (k, v)).
      unfold keys. now apply in_map.
    + auto.
Qed.

Lemma backtrack_fuel_NoDup c d fuel :
  forall a, NoDup (keys a) -> NoDup (keys (snd (backtrack_fuel c d fuel a))).
Proof.
  induction fuel as [|fuel IH]; simpl; intros a N; auto.
  destruct (assignment_complete c a); auto.
  destruct (select_unassigned_variable d a) as [var| |]; auto.
  destruct (order_domain_values c d var a) as [ws| |]; auto.
  apply try_candidates_invariant
    with (P := fun s => NoDup (keys s)); auto.
  - intros s Ns. now apply assign_NoDup.
  - intros s w _ Ns. now apply assign_NoDup.
Qed.

Lemma solve_result_shape c a :
  fst (solve c) = Ret (Some a) ->
  NoDup (keys a)
  /\ (forall v, In v (keys a) -> In v (variables c))
  /\ valid_solution c a.
Proof.
  unfold solve.
  destruct (enforce_node_consistency (init_domains c)) as [[[]|e|] d1] eqn:E;
    try discriminate.
  pose proof (ac3_shrinks c None d1) as Sh.
  destruct (ac3 c None d1) as [[b|e|] d2] eqn:A; try discriminate.
  simpl in Sh. destruct Sh as [K2 _].
  apply enforce_ret in E as [K1 _]. rewrite keys_init_domains in K1.
  cbn [fst]. unfold backtrack.
  destruct (backtrack_fuel_within c d2 (S (List.length (unassigned d2 []))) [])
    as [Ka _]; [intros v [] | discriminate |].
  pose proof (backtrack_fuel_NoDup
                c d2 (S (List.length (unassigned d2 []))) [] (NoDup_nil _))
    as N.
  destruct (backtrack_fuel c d2 (S (List.length (unassigned d2 []))) [])
    as [r a'] eqn:B.
  cbn [fst snd] in *. intros ->.
  apply backtrack_fuel_found in B as (-> & Cm & Cs).
  split; [exact N|]. split.
  - intros v I. apply Ka in I. now rewrite K2, K1 in I.
  - apply complete_consistent_valid; auto.
    destruct Cs as [->|Cs]; [apply consistent_empty | exact Cs].
Qed.

Lemma cell_of_injective v k1 k2 : cell_of v k1 = cell_of v k2 -> k1 = k2.
Proof.
  unfold cell_of. destruct (Var.direction v); intros H; injection H; lia.
Qed.

(** The solution is shown in full: when the slots of the puzzle lie inside
    the grid and the overlaps recorded for it are the cells its slots share,
    [letter_grid] returns an array for the assignment [solve] returns, and
    the array holds, for every variable, the letters of its word in the cells
    of its slot. *)
Theorem solve_result_shown c height width a :
  slots_in_grid height width c ->
  crossings_recorded c ->
  fst (solve c) = Ret (Some a) ->
  exists letters,
    letter_grid height width a = Ret letters
    /\ forall v, In v (variables c) ->
                 exists w, lookup a v = Some (Some w)
                           /\ forall k, k < Var.length v ->
                                        get_cell letters (cell_of v k)
                                        = String.get k w.
Proof.
  intros Sg Cr S. apply solve_result_shape in S as (N & K & [Sc _ Sl So]).
  assert (forall v x, In (v, x) a ->
                      In v (variables c)
                      /\ exists w, x = Some w /\ lookup a v = Some (Some w)
                                   /\ String.length w = Var.length v) as En.
  { intros v x I. assert (In v (variables c)) as Iv.
    { apply K. change v with (fst (v, x)). unfold keys. now apply in_map. }
    split; auto. apply In_lookup_NoDup in I; auto.
    destruct (Sc v Iv) as [w L]. exists w.
    rewrite L in I. injection I as <-. split; [reflexivity|].
    split; [exact L|]. now apply Sl. }
  assert (agree a) as Ag.
  { intros v1 w1 k1 v2 w2 k2 I1 I2 L1 L2 C.
    apply En in I1 as (V1 & w1' & [= <-] & Lk1 & Le1).
    apply En in I2 as (V2 & w2' & [= <-] & Lk2 & Le2).
    destruct (Var_eq_dec v1 v2) as [->|NE].
    - apply cell_of_injective in C as ->. congruence.
    - destruct (Cr v1 v2 k1 k2) as [Nb Ov]; auto; try lia.
      destruct (So v1 v2 w1 w2 k1 k2 Lk1 Nb Lk2 Ov)
        as (ch & -> & ->). reflexivity. }
  destruct (letter_grid_cases height width a)
    as [(g & F & R & Fit & G)|[[F (v & I)]
                              |[F (v & w & k & I & L & O)]]].
  - exists g. split; [exact F|]. intros v Iv.
    destruct (Sc v Iv) as [w L]. exists w. split; auto.
    intros k Lk. rewrite G. apply paint_agree; auto.
    + now apply lookup_In.
    + rewrite (Sl v w L). exact Lk.
  - apply En in I as (_ & w & [=] & _).
  - apply En in I as (Iv & w' & [= <-] & _ & Le). exfalso. apply O.
    apply Sg; auto. lia.
Qed.

Lemma solve_result_shown_witness :
  exists letters,
    letter_grid 3 3 [(Examples.X, Some "cat"); (Examples.Y, Some "tap")]
    = Ret letters
    /\ forall v, In v (variables (Examples.two_slots ["cat"; "tap"])) ->
                 exists w,
                   lookup [(Examples.X, Some "cat"); (Examples.Y, Some "tap")] v
                   = Some (Some w)
                   /\ forall k, k < Var.length v ->
                                get_cell letters (cell_of v k)
                                = String.get k w.
Proof.
  apply (solve_result_shown (Examples.two_slots ["cat"; "tap"]) 3 3).
  - intros v k [<-|[<-|[]]] L; simpl in L; unfold in_grid, cell_of; simpl; lia.
  - intros v u i j [<-|[<-|[]]] [<-|[<-|[]]] NE Li Lj C; try congruence;
      unfold cell_of in C; simpl in C; injection C as C1 C2; subst;
      vm_compute; auto.
  - reflexivity.
Defined.

(** ** A fixed point of AC-3 *)

Lemma revise_fixed c x y d b :
  arc_ok c d x y -> fst (revise c x y d) = Ret b ->
  revise c x y d = (Ret false, d).
Proof.
  intros Ok. unfold revise.
  destruct (overlaps c (x, y)) as [[[i j]|]|] eqn:O; auto.
  destruct (lookup d x) as [dx|] eqn:L; [|discriminate].
  destruct (values_to_remove d y i j dx) as [[|w rm]| |] eqn:V; auto;
    try discriminate.
  intros _. exfalso.
  destruct (values_to_remove_spec d y i j dx (w :: rm) V) as [Rm _].
  pose proof (values_to_remove_incl d y i j dx (w :: rm) V w
                                    (or_introl eq_refl)) as I.
  destruct (Ok i j w O) as (vy & ch & Iy & G1 & G2).
  { unfold domain. now rewrite L. }
  apply (has_support_false d y i j w vy ch); auto. apply Rm. now left.
Qed.

Lemma run_queue_fixed c continue d :
  forall q,
    (forall X Y, In (X, Y) q ->
                 arc_ok c d X Y /\ exists b, fst (revise c X Y d) = Ret b) ->
    run_queue c continue q d = (Ret true, d).
Proof.
  induction q as [|[X Y] rest IH]; simpl; intros H; auto.
  destruct (H X Y (or_introl eq_refl)) as [Ok [b R]].
  rewrite (revise_fixed c X Y d b Ok R). apply IH.
  intros X' Y' I. apply H. now right.
Qed.

Lemma ac3_on_consistent c d :
  InRange c -> keys d = variables c -> lengths_ok d ->
  arc_consistent c d ->
  ac3 c None d = (Ret true, d).
Proof.
  intros IR K LO AC. unfold ac3. cbn [ac3_loop].
  apply run_queue_fixed. intros X Y I.
  destruct (get_arcs_keys c d IR K X Y I) as [KX KY].
  unfold get_arcs in I. apply in_flat_map in I as (X' & VX & I).
  apply in_map_iff in I as (Y' & [= <- <-] & NY).
  split; [now apply AC | now apply revise_returns].
Qed.

(** AC-3 reaches a fixed point. On a puzzle in range and a store with a
    domain for every variable and words of the variables' lengths: when the
    store is arc consistent, [ac3] over all arcs returns [True] and changes
    nothing, also when some domain is empty; and on a puzzle whose lookups
    are symmetric, the store a run that returned [True] leaves is such a
    store, so a second run returns [True] and changes nothing. *)
Theorem ac3_fixed_point c d :
  InRange c -> keys d = variables c -> lengths_ok d ->
  (arc_consistent c d -> ac3 c None d = (Ret true, d))
  /\ (WellFormed c ->
      forall d', ac3 c None d = (Ret true, d') ->
                 ac3 c None d' = (Ret true, d')).
Proof.
  intros IR K LO. split; [now apply ac3_on_consistent|].
  intros WF d' H.
  pose proof (ac3_shrinks c None d) as Sh. rewrite H in Sh. simpl in Sh.
  apply ac3_on_consistent; auto.
  - destruct Sh as [K' _]. congruence.
  - eapply shrinks_lengths_ok; eauto.
  - unfold ac3 in H. eapply ac3_loop_sound; eauto.
    intros X Y VX NY. left. now apply get_arcs_all.
Qed.

Lemma ac3_fixed_point_witness :
  ac3 (Examples.two_slots []) None
      [(Examples.X, ["cat"]); (Examples.Y, ["tap"])]
  = (Ret true, [(Examples.X, ["cat"]); (Examples.Y, ["tap"])]).
Proof.
  refine (proj1 (ac3_fixed_point
                   (Examples.two_slots [])
                   [(Examples.X, ["cat"]); (Examples.Y, ["tap"])] _ _ _) _).
  - apply two_slots_InRange.
  - reflexivity.
  - intros v ws w L I. simpl in L.
    destruct (Var.eqb Examples.X v) eqn:EX.
    + apply Var_eqb_eq in EX. subst v. injection L as <-.
      destruct I as [<-|[]]. reflexivity.
    + destruct (Var.eqb Examples.Y v) eqn:EY; [|discriminate].
      apply Var_eqb_eq in EY. subst v. injection L as <-.
      destruct I as [<-|[]]. reflexivity.
  - unfold arc_consistent, arc_ok. intros X Y VX NY i j vx O I.
    destruct VX as [<-|[<-|[]]]; simpl in NY; destruct NY as [<-|[]];
      vm_compute in O; injection O as <- <-;
      vm_compute in I; destruct I as [<-|[]];
      [exists "tap", "t"%char | exists "cat", "t"%char]; vm_compute; auto.
Defined.
